(** * Mailing-list store (package mdb): a shallow embedding and its properties

    Source: src/mdb/mdb.go.  The package keeps one SQLite table,

        CREATE TABLE emails (id INTEGER PRIMARY KEY, email TEXT UNIQUE,
                             confirmed_at INTEGER, opt_out INTEGER);

    and offers TryCreate, CreateEmail, GetEmail, UpdateEmail, DeleteEmail and
    GetEmailBatch on it.  Every function sends one SQL statement through
    database/sql and looks at the error that comes back.  (The file holds a
    second copy of the package that stops after emailEntryFromRow; its
    TryCreate and emailEntryFromRow are the same code.)

    The embedding has four layers:
      - [GoInt]   : Go's 64-bit integers as Z with explicit wrap-around;
      - [GoTime]  : the part of package time that the code calls
                    (time.Unix, Time.Unix, and Time.Equal to compare);
      - [Sqlite]  : the database seen by the package: the object bound to the
                    name emails, and the meaning of the six statements the
                    package issues;
      - [Mdb]     : the Go functions of mdb.go, one definition each.

    Logging (log.Println) writes to stderr and influences no result; it is
    left out.  log.Fatal ends the process and is an outcome of its own.
    make follows runtime.makeslice: it panics for a capacity that is
    negative or beyond the limit of the allocator, and succeeds otherwise
    (running out of physical memory is not modelled). *)

From Stdlib Require Import ZArith List String Bool Lia Permutation Sorted.
Import ListNotations.
Open Scope string_scope.
Open Scope list_scope.
Open Scope Z_scope.

(* ================================================================== *)
(** ** Go integers *)

Module GoInt.

Definition min_int64 : Z := - 2 ^ 63.
Definition max_int64 : Z := 2 ^ 63 - 1.

(** Values of type int64 (and of int, on the 64-bit targets go-sqlite3 is
    built for). *)
Definition in_int64 (z : Z) : Prop := min_int64 <= z <= max_int64.

(** Result of a signed 64-bit operation whose exact value is [z]. *)
Definition wrap64 (z : Z) : Z := (z + 2 ^ 63) mod 2 ^ 64 - 2 ^ 63.

(** Conversion to uint64, and the result of an unsigned operation. *)
Definition uint64 (z : Z) : Z := z mod 2 ^ 64.

Definition in_uint64 (z : Z) : Prop := 0 <= z < 2 ^ 64.

End GoInt.

(* ================================================================== *)
(** ** package time *)

Module GoTime.
Import GoInt.

Inductive Location := UTC | Local.

(** type Time struct { wall uint64; ext int64; loc *Location } *)
Record Time := mkTime { wall : Z; ext : Z; loc : Location }.

Definition hasMonotonic : Z := Z.shiftl 1 63.
Definition nsecMask : Z := Z.shiftl 1 30 - 1.
Definition nsecShift : Z := 30.
Definition secondsPerDay : Z := 86400.
Definition unixToInternal : Z :=
  (1969 * 365 + 1969 / 4 - 1969 / 100 + 1969 / 400) * secondsPerDay.
Definition internalToUnix : Z := - unixToInternal.
Definition wallToInternal : Z :=
  (1884 * 365 + 1884 / 4 - 1884 / 100 + 1884 / 400) * secondsPerDay.

Definition wf_Time (t : Time) : Prop := in_uint64 (wall t) /\ in_int64 (ext t).

(** func (t *Time) nsec() int32 { return int32(t.wall & nsecMask) } *)
Definition nsec (t : Time) : Z := Z.land (wall t) nsecMask.

(** func (t *Time) sec() int64: seconds since year 1. *)
Definition sec (t : Time) : Z :=
  if Z.land (wall t) hasMonotonic =? 0 then ext t
  else wrap64 (wallToInternal
               + Z.shiftr (uint64 (Z.shiftl (wall t) 1)) (nsecShift + 1)).

(** func (t Time) Unix() int64 { return t.sec() + internalToUnix } *)
Definition Time_Unix (t : Time) : Z := wrap64 (sec t + internalToUnix).

(** func unixTime(sec int64, nsec int32) Time *)
Definition unixTime (s n : Z) : Time :=
  mkTime (uint64 n) (wrap64 (s + unixToInternal)) Local.

(** func Unix(sec int64, nsec int64) Time.  Go's / truncates: Z.quot. *)
Definition Unix (s n : Z) : Time :=
  if (n <? 0) || (1000000000 <=? n) then
    let q := Z.quot n 1000000000 in
    let s1 := wrap64 (s + q) in
    let n1 := wrap64 (n - wrap64 (q * 1000000000)) in
    if n1 <? 0 then unixTime (wrap64 (s1 - 1)) (wrap64 (n1 + 1000000000))
    else unixTime s1 n1
  else unixTime s n.

(** func (t Time) Equal(u Time) bool: same instant, whatever the location. *)
Definition Equal (t u : Time) : bool :=
  if negb (Z.land (Z.land (wall t) (wall u)) hasMonotonic =? 0)
  then ext t =? ext u
  else (sec t =? sec u) && (nsec t =? nsec u).

End GoTime.

(* ================================================================== *)
(** ** The database *)

Module Sqlite.
Import GoInt.

(** Errors a database/sql call returns.  [SqliteError] is go-sqlite3's
    sqlite3.Error (primary code, extended code, message); [ScanError] is
    the conversion error of Rows.Scan for a column index; [DriverError] is
    any error that is not a sqlite3.Error (sql: database is closed, a
    cancelled context, ...). *)
Inductive error :=
| SqliteError (Code ExtendedCode : Z) (msg : string)
| ScanError (column : nat) (msg : string)
| DriverError (msg : string).

Definition SQLITE_ERROR : Z := 1.
Definition SQLITE_FULL : Z := 13.
Definition SQLITE_CONSTRAINT : Z := 19.
Definition SQLITE_CONSTRAINT_UNIQUE : Z := 2067.

Definition table_already_exists : error :=
  SqliteError SQLITE_ERROR 1 "table emails already exists".
Definition index_already_exists : error :=
  SqliteError SQLITE_ERROR 1 "there is already an index named emails".
Definition no_such_table : error :=
  SqliteError SQLITE_ERROR 1 "no such table: emails".
Definition values_for_columns : error :=
  SqliteError SQLITE_ERROR 1 "1 values for 3 columns".
Definition unique_failed : error :=
  SqliteError SQLITE_CONSTRAINT SQLITE_CONSTRAINT_UNIQUE
              "UNIQUE constraint failed: emails.email".
Definition database_full : error :=
  SqliteError SQLITE_FULL 13 "database or disk is full".

(** A row of emails, with the columns and the types of the CREATE TABLE
    statement; opt_out is an INTEGER column. *)
Record Row := mkRow { id : Z; email : string; confirmed_at : Z; opt_out : Z }.

(** What the schema binds the name emails to: nothing, the table (with its
    rows, in insertion order), or an index of another table.  Tables and
    indexes share one name space. *)
Inductive DB :=
| NoRelation
| Emails (rows : list Row)
| IndexNamedEmails.

(** What the package cannot control in one round trip: a failure below SQL
    (connection, disk, lock) and where it strikes, and the rowids SQLite
    draws at random once the largest rowid is already 2^63 - 1.

    db.Exec runs its statement to the end and returns every fault.
    db.Query prepares and binds; the statement is stepped by rows.Next.
    With [at_row = None] the fault makes db.Query itself fail.  With
    [at_row = Some k] db.Query succeeds, rows.Next delivers k rows and then
    returns false, and the error stays in rows.Err. *)
Record Driver := mkDriver {
  fault : option error;
  random_rowids : list Z;
  at_row : option nat
}.

Definition healthy : Driver := mkDriver None [] None.

(** The VALUES clause of the two INSERT statements, both for the column
    list (email, confirmed_at, opt_out):
      [VALUES e c o]      is  VALUES (e, c, o)    three terms;
      [VALUES_ROW e c o]  is  VALUES ((e, c, o))  one term, a row value. *)
Inductive values_clause :=
| VALUES (e : string) (c o : Z)
| VALUES_ROW (e : string) (c o : Z).

Inductive conflict_clause :=
| ABORT
| ON_CONFLICT_email_DO_UPDATE_SET (c o : Z).

(** Statements sent with db.Exec, placeholders already bound. *)
Inductive statement :=
| CREATE_TABLE_emails
| INSERT_INTO_emails (v : values_clause) (k : conflict_clause)
| UPDATE_emails_SET_opt_out (o : Z) (where_email : string).

(** Statements sent with db.Query. *)
Inductive query :=
| SELECT_WHERE_email (e : string)
| SELECT_WHERE_opt_out_ORDER_BY_id (o : Z) (limit offset : Z).

Definition TRUE : Z := 1.
Definition FALSE : Z := 0.

Definition has_email (e : string) (r : Row) : bool := String.eqb (email r) e.

Definition set_confirmation (c o : Z) (r : Row) : Row :=
  mkRow (id r) (email r) c o.

Definition set_opt_out (o : Z) (r : Row) : Row :=
  mkRow (id r) (email r) (confirmed_at r) o.

(** DO UPDATE acts on the row that conflicts: the first (and under the
    UNIQUE constraint the only) row with this email. *)
Fixpoint update_conflicting (e : string) (c o : Z) (rows : list Row) : list Row :=
  match rows with
  | [] => []
  | r :: rest =>
      if has_email e r then set_confirmation c o r :: rest
      else r :: update_conflicting e c o rest
  end.

Definition max_rowid (rows : list Row) : option Z :=
  match rows with
  | [] => None
  | r :: rest => Some (fold_left Z.max (map id rest) (id r))
  end.

Definition rowid_in_use (rows : list Row) (z : Z) : bool :=
  existsb (fun r => id r =? z) rows.

(** Rowid of a new row of an INTEGER PRIMARY KEY table: 1 in an empty
    table, else the largest rowid plus one; when the largest is 2^63 - 1,
    the first random candidate that is positive and free, and SQLITE_FULL
    when the attempts run out. *)
Definition new_rowid (d : Driver) (rows : list Row) : option Z :=
  match max_rowid rows with
  | None => Some 1
  | Some m =>
      if m <? max_int64 then Some (m + 1)
      else find (fun z => (0 <? z) && (z <=? max_int64)
                          && negb (rowid_in_use rows z))
                (random_rowids d)
  end.

Definition exec_statement (d : Driver) (db : DB) (s : statement)
  : DB * option error :=
  match s with
  | CREATE_TABLE_emails =>
      match db with
      | NoRelation => (Emails [], None)
      | Emails _ => (db, Some table_already_exists)
      | IndexNamedEmails => (db, Some index_already_exists)
      end
  | INSERT_INTO_emails v k =>
      match db with
      | Emails rows =>
          match v with
          | VALUES_ROW _ _ _ => (db, Some values_for_columns)
          | VALUES e c o =>
              if existsb (has_email e) rows then
                match k with
                | ABORT => (db, Some unique_failed)
                | ON_CONFLICT_email_DO_UPDATE_SET c' o' =>
                    (Emails (update_conflicting e c' o' rows), None)
                end
              else
                match new_rowid d rows with
                | Some i => (Emails (rows ++ [mkRow i e c o]), None)
                | None => (db, Some database_full)
                end
          end
      | _ => (db, Some no_such_table)
      end
  | UPDATE_emails_SET_opt_out o e =>
      match db with
      | Emails rows =>
          (Emails (map (fun r => if has_email e r then set_opt_out o r else r)
                       rows), None)
      | _ => (db, Some no_such_table)
      end
  end.

(** db.Exec: a fault of the driver comes first and leaves the data alone. *)
Definition Exec (d : Driver) (db : DB) (s : statement) : DB * option error :=
  match fault d with
  | Some e => (db, Some e)
  | None => exec_statement d db s
  end.

(** ORDER BY id ASC, as an insertion sort. *)
Fixpoint insert_by_id (r : Row) (l : list Row) : list Row :=
  match l with
  | [] => [r]
  | x :: rest => if id r <=? id x then r :: l else x :: insert_by_id r rest
  end.

Fixpoint order_by_id (l : list Row) : list Row :=
  match l with
  | [] => []
  | r :: rest => insert_by_id r (order_by_id rest)
  end.

(** LIMIT n OFFSET m: a negative offset counts as 0, a negative limit is
    no limit. *)
Definition limit_offset (limit offset : Z) (l : list Row) : list Row :=
  let skipped := skipn (Z.to_nat (Z.max 0 offset)) l in
  if limit <? 0 then skipped else firstn (Z.to_nat limit) skipped.

Definition run_query (db : DB) (q : query) : list Row + error :=
  match db with
  | Emails rows =>
      match q with
      | SELECT_WHERE_email e => inl (filter (has_email e) rows)
      | SELECT_WHERE_opt_out_ORDER_BY_id o limit offset =>
          inl (limit_offset limit offset
                 (order_by_id (filter (fun r => opt_out r =? o) rows)))
      end
  | _ => inr no_such_table
  end.

(** db.Query and the rows that rows.Next then delivers: the error of the
    call, or the rows a loop  for rows.Next() { ... }  gets to see.  A fault
    while the rows are stepped ends the loop early; it is kept in rows.Err,
    which is no part of this result because mdb.go never reads it. *)
Definition Query (d : Driver) (db : DB) (q : query) : list Row + error :=
  match fault d with
  | None => run_query db q
  | Some e =>
      match at_row d with
      | None => inr e
      | Some k =>
          match run_query db q with
          | inl rows => inl (firstn k rows)
          | inr x => inr x
          end
      end
  end.

(** rows.Scan(&id, &email, &confirmedAt, &optOut) with destinations of
    type int64, string, int64 and bool: the integer read from opt_out
    converts to bool only when it is 0 or 1. *)
Definition Scan (r : Row) : (Z * string * Z * bool) + error :=
  if opt_out r =? 0 then inl (id r, email r, confirmed_at r, false)
  else if opt_out r =? 1 then inl (id r, email r, confirmed_at r, true)
  else inr (ScanError 3 "couldn't convert into type bool").

(** Invariant of a table written through this package. *)
Definition wf_row (r : Row) : Prop :=
  in_int64 (id r) /\ in_int64 (confirmed_at r) /\ (opt_out r = 0 \/ opt_out r = 1).

Definition wf_rows (rows : list Row) : Prop :=
  NoDup (map email rows) /\ NoDup (map id rows) /\ Forall wf_row rows.

Definition wf_DB (db : DB) : Prop :=
  match db with
  | Emails rows => wf_rows rows
  | _ => True
  end.

End Sqlite.

(* ================================================================== *)
(** ** package mdb *)

Module Mdb.
Import GoInt GoTime Sqlite.

(** type EmailEntry struct; the pointer ConfirmedAt is an option. *)
Record EmailEntry := mkEmailEntry {
  Id : Z;
  Email : string;
  ConfirmedAt : option Time;
  OptOut : bool
}.

(** How a call ends: it returns, it panics, or log.Fatal ends the process. *)
Inductive outcome (A : Type) :=
| Return (a : A)
| Panic (msg : string)
| Fatal (e : error).
Arguments Return {A} a.
Arguments Panic {A} msg.
Arguments Fatal {A} e.

Definition nil_dereference : string :=
  "invalid memory address or nil pointer dereference".
Definition makeslice_cap : string := "makeslice: cap out of range".

(** make([]EmailEntry, 0, cap) calls runtime.makeslice, which panics with
    "makeslice: cap out of range" when cap is negative or cap elements take
    more than maxAlloc bytes.  On the 64-bit targets an EmailEntry (int64,
    string, pointer, bool) takes 40 bytes and maxAlloc is 2^48, so the
    largest capacity accepted is 7036874417766. *)
Definition sizeof_EmailEntry : Z := 40.
Definition maxAlloc : Z := 2 ^ 48.

Definition makeslice_panics (cap : Z) : bool :=
  (cap <? 0) || (maxAlloc <? sizeof_EmailEntry * cap).

(** A Go bool bound to a placeholder is sent as the integer 1 or 0. *)
Definition bind_bool (b : bool) : Z := if b then 1 else 0.

(** func TryCreate(db *sql.DB) *)
Definition TryCreate (d : Driver) (db : DB) : DB * outcome unit :=
  let '(db', err) := Exec d db CREATE_TABLE_emails in
  match err with
  | Some e =>
      match e with
      | SqliteError Code _ _ =>
          if negb (Code =? 1) then (db', Fatal e) else (db', Return tt)
      | _ => (db', Fatal e)
      end
  | None => (db', Return tt)
  end.

(** func emailEntryFromRow(row *sql.Rows), returning *EmailEntry and error *)
Definition emailEntryFromRow (row : Row) : option EmailEntry * option error :=
  match Scan row with
  | inr err => (None, Some err)
  | inl (id, email, confirmedAt, optOut) =>
      let t := Unix confirmedAt 0 in
      (Some (mkEmailEntry id email (Some t) optOut), None)
  end.

(** func CreateEmail(db *sql.DB, email string) error.  The statement reads
    VALUES ((?, 0, false)). *)
Definition CreateEmail (d : Driver) (db : DB) (email : string)
  : DB * option error :=
  let '(db', err) :=
    Exec d db (INSERT_INTO_emails (VALUES_ROW email 0 FALSE) ABORT) in
  match err with
  | Some e => (db', Some e)
  | None => (db', None)
  end.

(** func GetEmail(db *sql.DB, email string), returning *EmailEntry and error *)
Definition GetEmail (d : Driver) (db : DB) (email : string)
  : option EmailEntry * option error :=
  match Query d db (SELECT_WHERE_email email) with
  | inr err => (None, Some err)
  | inl rows =>
      match rows with
      | row :: _ => emailEntryFromRow row
      | [] => (None, None)
      end
  end.

(** func UpdateEmail(db *sql.DB, entry EmailEntry) error *)
Definition UpdateEmail (d : Driver) (db : DB) (entry : EmailEntry)
  : DB * outcome (option error) :=
  match ConfirmedAt entry with
  | None => (db, Panic nil_dereference)
  | Some confirmedAt =>
      let t := Time_Unix confirmedAt in
      let o := bind_bool (OptOut entry) in
      let '(db', err) :=
        Exec d db (INSERT_INTO_emails (VALUES (Email entry) t o)
                     (ON_CONFLICT_email_DO_UPDATE_SET t o)) in
      match err with
      | Some e => (db', Return (Some e))
      | None => (db', Return None)
      end
  end.

(** func DeleteEmail(db *sql.DB, email string) error *)
Definition DeleteEmail (d : Driver) (db : DB) (email : string)
  : DB * option error :=
  let '(db', err) := Exec d db (UPDATE_emails_SET_opt_out TRUE email) in
  match err with
  | Some e => (db', Some e)
  | None => (db', None)
  end.

(** type GetEmailBatchQueryParams struct { Page int; Count int } *)
Record GetEmailBatchQueryParams := mkParams { Page : Z; Count : Z }.

(** The loop  for rows.Next() { ... emails = append(emails, *entry) }. *)
Fixpoint GetEmailBatch_loop (rows : list Row) (emails : list EmailEntry)
  : outcome (list EmailEntry * option error) :=
  match rows with
  | [] => Return (emails, None)
  | row :: rest =>
      match emailEntryFromRow row with
      | (_, Some err) => Return ([], Some err)
      | (Some entry, None) => GetEmailBatch_loop rest (emails ++ [entry])
      | (None, None) => Panic nil_dereference
      end
  end.

(** func GetEmailBatch(db *sql.DB, params GetEmailBatchQueryParams)
      ([]EmailEntry, error) *)
Definition GetEmailBatch (d : Driver) (db : DB) (params : GetEmailBatchQueryParams)
  : outcome (list EmailEntry * option error) :=
  match Query d db
          (SELECT_WHERE_opt_out_ORDER_BY_id FALSE (Count params)
             (wrap64 (wrap64 (Page params - 1) * Count params))) with
  | inr err => Return ([], Some err)
  | inl rows =>
      if makeslice_panics (Count params) then Panic makeslice_cap
      else GetEmailBatch_loop rows []
  end.

(** The entry a well-typed row is read as. *)
Definition entry_of_row (r : Row) : EmailEntry :=
  mkEmailEntry (id r) (email r) (Some (Unix (confirmed_at r) 0))
               (opt_out r =? 1).

End Mdb.

(* ================================================================== *)
(** ** Vocabulary of the properties *)

Import GoInt GoTime Sqlite Mdb.

(** Ascending id. *)
Definition by_id (a b : Row) : Prop := id a <= id b.

(** Arguments the package binds: seconds are an int64, flags are 0 or 1. *)
Definition wf_statement (s : statement) : Prop :=
  match s with
  | CREATE_TABLE_emails => True
  | INSERT_INTO_emails v k =>
      match v with
      | VALUES _ c o => in_int64 c /\ (o = 0 \/ o = 1)
      | VALUES_ROW _ _ _ => True
      end /\
      match k with
      | ABORT => True
      | ON_CONFLICT_email_DO_UPDATE_SET c o => in_int64 c /\ (o = 0 \/ o = 1)
      end
  | UPDATE_emails_SET_opt_out o _ => o = 0 \/ o = 1
  end.

(** The stored opt_out reads as a Go bool. *)
Definition flag (r : Row) : Prop := opt_out r = 0 \/ opt_out r = 1.

(** Sample tables, entries and times. *)
Definition one_row : list Row := [mkRow 1 "a@x.com" 0 0].

Definition two_rows : list Row :=
  [mkRow 1 "a@x.com" 0 0; mkRow 2 "b@x.com" 5 0].

Definition entry_b : EmailEntry :=
  mkEmailEntry 0 "b@x.com" (Some (Unix 1700000000 0)) true.

Definition utc_2023 : Time := mkTime 0 (1700000000 + unixToInternal) UTC.

(** [r'] is [r] after DeleteEmail of [addr]. *)
Definition opted_out (addr : string) (r r' : Row) : Prop :=
  id r' = id r /\ email r' = email r /\ confirmed_at r' = confirmed_at r /\
  opt_out r' = if has_email addr r then 1 else opt_out r.

(** What the UPDATE of DeleteEmail does to one row. *)
Definition mark (addr : string) (r : Row) : Row :=
  if has_email addr r then set_opt_out TRUE r else r.

(** [e] is an entry that GetEmail returns, or an element of the slice
    that GetEmailBatch returns. *)
Definition handed_out (d : Driver) (db : DB) (addr : string)
           (params : GetEmailBatchQueryParams) (e : EmailEntry) : Prop :=
  (exists err, GetEmail d db addr = (Some e, err)) \/
  (exists es err, GetEmailBatch d db params = Return (es, err) /\ In e es).

(** WHERE opt_out = false. *)
Definition subscribed (r : Row) : bool := opt_out r =? 0.

(** [out] is the window of page [page] with [count] rows per page: the
    entries of the rows with opt_out = 0, in ascending id, from position
    (page - 1) * count, at most count of them. *)
Definition batch_window (rows : list Row) (page count : Z)
           (out : list EmailEntry) : Prop :=
  exists l,
    Permutation l (filter subscribed rows) /\
    StronglySorted by_id l /\
    out = map entry_of_row
            (firstn (Z.to_nat count) (skipn (Z.to_nat ((page - 1) * count)) l)).

(** What the specification asks of GetBatch for page, count >= 1. *)
Definition returns_window (d : Driver) (rows : list Row) (page count : Z) : Prop :=
  exists out,
    GetEmailBatch d (Emails rows) (mkParams page count) = Return (out, None) /\
    batch_window rows page count out.

(** What the specification asks for count <= 0 or page <= 0: an error. *)
Definition rejects (d : Driver) (db : DB) (page count : Z) : Prop :=
  exists out e, GetEmailBatch d db (mkParams page count) = Return (out, Some e).

(** The example of the specification: 25 rows, pages of 10; the addresses
    are a@x.com to y@x.com. *)
Definition rows_25 : list Row :=
  map (fun n => mkRow (Z.of_nat n)
                  (String (Ascii.ascii_of_nat (96 + n)) "@x.com") 0 0)
      (seq 1 25).

(** A call that can write to the database, and the database it leaves:
    whether the call returned, panicked or ended the process, the data
    stays where the call left it. *)
Inductive call :=
| Call_TryCreate
| Call_CreateEmail (addr : string)
| Call_UpdateEmail (entry : EmailEntry)
| Call_DeleteEmail (addr : string).

Definition after (db : DB) (c : Driver * call) : DB :=
  match snd c with
  | Call_TryCreate => fst (TryCreate (fst c) db)
  | Call_CreateEmail addr => fst (CreateEmail (fst c) db addr)
  | Call_UpdateEmail entry => fst (UpdateEmail (fst c) db entry)
  | Call_DeleteEmail addr => fst (DeleteEmail (fst c) db addr)
  end.

(** The database after a sequence of calls, each with its own driver. *)
Definition history (db : DB) (calls : list (Driver * call)) : DB :=
  fold_left after calls db.

(** Ascending Id, for entries. *)
Definition by_Id (a b : EmailEntry) : Prop := Id a <= Id b.

(** make accepts the capacity. *)
Definition fits_make (count : Z) : Prop :=
  0 <= count /\ sizeof_EmailEntry * count <= maxAlloc.

(** No fault makes db.Query itself fail. *)
Definition query_answers (d : Driver) : Prop :=
  fault d = None \/ at_row d <> None.

(** The name emails is not bound to the table. *)
Definition no_table (db : DB) : Prop := db = NoRelation \/ db = IndexNamedEmails.

(* ================================================================== *)
(** ** Arithmetic of the 64-bit integers *)

Section IntFacts.

Lemma wrap64_in_range (z : Z) : in_int64 (wrap64 z).
Proof.
  unfold in_int64, wrap64, min_int64, max_int64.
  pose proof (Z.mod_pos_bound (z + 2 ^ 63) (2 ^ 64) ltac:(lia)). lia.
Qed.

Lemma wrap64_id (z : Z) : in_int64 z -> wrap64 z = z.
Proof.
  unfold in_int64, wrap64, min_int64, max_int64. intros H.
  rewrite Z.mod_small; lia.
Qed.

Lemma wrap64_add_l (a b : Z) : wrap64 (wrap64 a + b) = wrap64 (a + b).
Proof.
  unfold wrap64. f_equal.
  replace (a + 2 ^ 63) with (a + 2 ^ 63 + 0) by lia.
  replace ((a + 2 ^ 63 + 0) mod 2 ^ 64 - 2 ^ 63 + b + 2 ^ 63)
    with ((a + 2 ^ 63 + 0) mod 2 ^ 64 + b) by lia.
  rewrite Zplus_mod_idemp_l. f_equal. lia.
Qed.

End IntFacts.

(* ================================================================== *)
(** ** Seconds since the epoch and back *)

Section TimeFacts.

Lemma sec_in_range (t : Time) : wf_Time t -> in_int64 (sec t).
Proof.
  intros [_ Hext]. unfold sec.
  destruct (Z.land (wall t) hasMonotonic =? 0); [exact Hext|].
  apply wrap64_in_range.
Qed.

(** time.Unix(s, 0) takes the branch without normalisation. *)
Lemma Unix_whole_second (s : Z) :
  Unix s 0 = mkTime 0 (wrap64 (s + unixToInternal)) Local.
Proof. reflexivity. Qed.

Lemma sec_Unix (s : Z) : sec (Unix s 0) = wrap64 (s + unixToInternal).
Proof. reflexivity. Qed.

(** Decoding the stored seconds and encoding them again gives the stored
    seconds, for every int64. *)
Lemma Time_Unix_of_Unix (s : Z) : in_int64 s -> Time_Unix (Unix s 0) = s.
Proof.
  intros Hs. unfold Time_Unix. rewrite sec_Unix, wrap64_add_l.
  unfold internalToUnix.
  replace (s + unixToInternal + - unixToInternal) with s by lia.
  now apply wrap64_id.
Qed.

(** Encoding a time as seconds and decoding them gives the same second. *)
Lemma sec_Unix_of_Time_Unix (t : Time) :
  wf_Time t -> sec (Unix (Time_Unix t) 0) = sec t.
Proof.
  intros Ht. rewrite sec_Unix. unfold Time_Unix.
  rewrite wrap64_add_l. unfold internalToUnix.
  replace (sec t + - unixToInternal + unixToInternal) with (sec t) by lia.
  apply wrap64_id, sec_in_range, Ht.
Qed.

Lemma Equal_Unix_of_Time_Unix (t : Time) :
  wf_Time t -> nsec t = 0 -> Equal t (Unix (Time_Unix t) 0) = true.
Proof.
  intros Ht Hn. unfold Equal.
  rewrite Unix_whole_second at 1. cbn [wall].
  rewrite Z.land_0_r, Z.land_0_l. cbn [Z.eqb negb].
  rewrite sec_Unix_of_Time_Unix by exact Ht.
  rewrite Z.eqb_refl, Hn. reflexivity.
Qed.

Lemma Time_Unix_roundtrip (t : Time) :
  wf_Time t -> Time_Unix (Unix (Time_Unix t) 0) = Time_Unix t.
Proof.
  intros Ht. unfold Time_Unix at 1.
  now rewrite sec_Unix_of_Time_Unix.
Qed.

End TimeFacts.

(* ================================================================== *)
(** ** Facts about the table *)

Section TableFacts.

Lemma has_email_true (e : string) (r : Row) : has_email e r = true <-> email r = e.
Proof. unfold has_email. apply String.eqb_eq. Qed.

Lemma has_email_false (e : string) (r : Row) : has_email e r = false <-> email r <> e.
Proof. unfold has_email. apply String.eqb_neq. Qed.

Lemma no_match_existsb (e : string) (rows : list Row) :
  existsb (has_email e) rows = false <-> (forall r, In r rows -> email r <> e).
Proof.
  induction rows as [|x rows IH]; simpl.
  - split; [intros _ r []|reflexivity].
  - rewrite orb_false_iff, IH, has_email_false. split.
    + intros [Hx Hrest] r [<-|Hin]; auto.
    + intros H. split; [apply H; now left|]. intros r Hin. apply H. now right.
Qed.

(** A table with a row for [e] splits at the first such row. *)
Lemma first_match (e : string) (rows : list Row) :
  existsb (has_email e) rows = true ->
  exists before r after,
    rows = before ++ r :: after /\ email r = e /\
    (forall x, In x before -> email x <> e).
Proof.
  induction rows as [|x rows IH]; simpl; [discriminate|].
  destruct (has_email e x) eqn:Hx; simpl.
  - intros _. exists [], x, rows. repeat split.
    + now apply has_email_true.
    + intros y [].
  - intros H. destruct (IH H) as (before & r & after & -> & Hr & Hb).
    exists (x :: before), r, after. repeat split; auto.
    intros y [<-|Hy]; [now apply has_email_false|now apply Hb].
Qed.

Lemma existsb_at (e : string) (before after : list Row) (r : Row) :
  email r = e -> existsb (has_email e) (before ++ r :: after) = true.
Proof.
  intros Hr. rewrite existsb_app. simpl.
  apply has_email_true in Hr. rewrite Hr. now rewrite orb_true_r.
Qed.

Lemma filter_no_match (e : string) (rows : list Row) :
  (forall x, In x rows -> email x <> e) -> filter (has_email e) rows = [].
Proof.
  induction rows as [|x rows IH]; simpl; intros H; [reflexivity|].
  assert (Hx : has_email e x = false) by (apply has_email_false, H; now left).
  rewrite Hx. apply IH. intros y Hy. apply H. now right.
Qed.

Lemma filter_first_match (e : string) (before after : list Row) (r : Row) :
  (forall x, In x before -> email x <> e) -> email r = e ->
  filter (has_email e) (before ++ r :: after) = r :: filter (has_email e) after.
Proof.
  intros Hb Hr. rewrite filter_app, (filter_no_match _ _ Hb). simpl.
  apply has_email_true in Hr. now rewrite Hr.
Qed.

Lemma update_conflicting_at (e : string) (c o : Z) (before after : list Row) (r : Row) :
  (forall x, In x before -> email x <> e) -> email r = e ->
  update_conflicting e c o (before ++ r :: after)
  = before ++ set_confirmation c o r :: after.
Proof.
  intros Hb Hr. induction before as [|x before IH]; simpl.
  - apply has_email_true in Hr. now rewrite Hr.
  - assert (Hx : has_email e x = false) by (apply has_email_false, Hb; now left).
    rewrite Hx. f_equal. apply IH. intros y Hy. apply Hb. now right.
Qed.

(** *** ORDER BY id *)

Lemma insert_by_id_perm (r : Row) (l : list Row) :
  Permutation (insert_by_id r l) (r :: l).
Proof.
  induction l as [|x l IH]; simpl; [reflexivity|].
  destruct (id r <=? id x); [reflexivity|].
  rewrite IH. apply perm_swap.
Qed.

Lemma order_by_id_perm (l : list Row) : Permutation (order_by_id l) l.
Proof.
  induction l as [|x l IH]; simpl; [reflexivity|].
  rewrite insert_by_id_perm. now apply perm_skip.
Qed.

Lemma insert_by_id_sorted (r : Row) (l : list Row) :
  StronglySorted by_id l -> StronglySorted by_id (insert_by_id r l).
Proof.
  induction 1 as [|x l Hs IH Hx]; simpl.
  - constructor; constructor.
  - destruct (id r <=? id x) eqn:Hle.
    + apply Z.leb_le in Hle. constructor.
      * now constructor.
      * constructor; [exact Hle|].
        rewrite Forall_forall in *. intros y Hy.
        specialize (Hx y Hy). unfold by_id in *. lia.
    + apply Z.leb_gt in Hle. constructor; [exact IH|].
      rewrite Forall_forall in *. intros y Hy.
      apply (Permutation_in _ (insert_by_id_perm r l)) in Hy.
      destruct Hy as [<-|Hy]; [unfold by_id; lia|now apply Hx].
Qed.

Lemma order_by_id_sorted (l : list Row) : StronglySorted by_id (order_by_id l).
Proof.
  induction l as [|x l IH]; simpl; [constructor|].
  now apply insert_by_id_sorted.
Qed.

(** *** Rowids *)

Lemma fold_max_ge (l : list Z) (a : Z) :
  a <= fold_left Z.max l a /\ Forall (fun z => z <= fold_left Z.max l a) l.
Proof.
  revert a. induction l as [|x l IH]; intros a; simpl.
  - split; [lia|constructor].
  - destruct (IH (Z.max a x)) as [H1 H2]. split; [lia|].
    constructor; [lia|exact H2].
Qed.

Lemma fold_max_in (l : list Z) (a : Z) :
  fold_left Z.max l a = a \/ In (fold_left Z.max l a) l.
Proof.
  revert a. induction l as [|x l IH]; intros a; simpl; [now left|].
  destruct (IH (Z.max a x)) as [H|H]; [|now right; right].
  rewrite H. destruct (Z.max_spec a x) as [[_ ->]|[_ ->]]; [right|]; now left.
Qed.

Lemma max_rowid_bounds (rows : list Row) (m : Z) :
  max_rowid rows = Some m ->
  In m (map id rows) /\ Forall (fun z => z <= m) (map id rows).
Proof.
  destruct rows as [|r rest]; simpl; [discriminate|].
  intros [= <-]. destruct (fold_max_ge (map id rest) (id r)) as [H1 H2].
  split; [|now constructor].
  destruct (fold_max_in (map id rest) (id r)) as [->|H]; [now left|now right].
Qed.

Lemma rowid_in_use_false (rows : list Row) (z : Z) :
  rowid_in_use rows z = false -> ~ In z (map id rows).
Proof.
  unfold rowid_in_use. induction rows as [|x rows IH]; simpl; [tauto|].
  rewrite orb_false_iff. intros [Hx Hr] [H|H].
  - apply Z.eqb_neq in Hx. congruence.
  - now apply IH.
Qed.

(** With the largest rowid in use, the random candidates decide. *)
Lemma new_rowid_saturated :
  new_rowid (mkDriver None [0; 7] None) [mkRow max_int64 "a@x.com" 0 0] = Some 7 /\
  new_rowid healthy [mkRow max_int64 "a@x.com" 0 0] = None.
Proof. split; reflexivity. Qed.

(** A rowid handed out is an int64 that no row has. *)
Lemma new_rowid_fresh (d : Driver) (rows : list Row) (i : Z) :
  Forall wf_row rows -> new_rowid d rows = Some i ->
  in_int64 i /\ ~ In i (map id rows).
Proof.
  intros Hwf. unfold new_rowid.
  destruct (max_rowid rows) as [m|] eqn:Hm.
  - destruct (max_rowid_bounds _ _ Hm) as [Hin Hle].
    destruct (m <? max_int64) eqn:Hlt.
    + intros [= <-]. apply Z.ltb_lt in Hlt. split.
      * apply in_map_iff in Hin. destruct Hin as (r & Hr & Hin).
        rewrite Forall_forall in Hwf. destruct (Hwf r Hin) as [Hid _].
        unfold in_int64 in *. lia.
      * intros Hc. rewrite Forall_forall in Hle. specialize (Hle _ Hc). lia.
    + intros Hf. apply find_some in Hf. destruct Hf as [_ Hf].
      rewrite !andb_true_iff, negb_true_iff in Hf.
      destruct Hf as [[H0 Hmax] Huse].
      apply Z.ltb_lt in H0. apply Z.leb_le in Hmax. split.
      * unfold in_int64, min_int64. split; [lia|exact Hmax].
      * now apply rowid_in_use_false.
  - destruct rows; [|discriminate]. intros [= <-]. split.
    + unfold in_int64, min_int64, max_int64. lia.
    + intros [].
Qed.

End TableFacts.

(* ================================================================== *)
(** ** The invariant of the table *)

Section Invariant.

Lemma update_conflicting_keys (e : string) (c o : Z) (rows : list Row) :
  map email (update_conflicting e c o rows) = map email rows /\
  map id (update_conflicting e c o rows) = map id rows.
Proof.
  induction rows as [|x rows [IH1 IH2]]; simpl; [now split|].
  destruct (has_email e x); simpl; [now split|].
  now rewrite IH1, IH2.
Qed.

Lemma update_conflicting_wf (e : string) (c o : Z) (rows : list Row) :
  in_int64 c -> (o = 0 \/ o = 1) ->
  Forall wf_row rows -> Forall wf_row (update_conflicting e c o rows).
Proof.
  intros Hc Ho. induction 1 as [|x rows Hx Hrows IH]; simpl; [constructor|].
  destruct (has_email e x); constructor; auto.
  destruct Hx as (Hid & _ & _). split; [exact Hid|split; assumption].
Qed.

Lemma set_opt_out_keys (e : string) (o : Z) (rows : list Row) :
  let rows' := map (fun r => if has_email e r then set_opt_out o r else r) rows in
  map email rows' = map email rows /\ map id rows' = map id rows.
Proof.
  induction rows as [|x rows [IH1 IH2]]; simpl; [now split|].
  rewrite IH1, IH2. now destruct (has_email e x).
Qed.

Lemma exec_statement_wf (d : Driver) (db : DB) (s : statement) :
  wf_DB db -> wf_statement s -> wf_DB (fst (exec_statement d db s)).
Proof.
  intros Hdb Hs. destruct s as [|v k|o e]; simpl.
  - destruct db; simpl; auto.
    repeat split; constructor.
  - destruct db as [|rows|]; simpl; auto.
    destruct v as [e c o|e c o]; simpl; auto.
    destruct Hs as [[Hc Ho] Hk].
    destruct (existsb (has_email e) rows) eqn:Hex.
    + destruct k as [|c' o']; simpl; auto.
      destruct Hk as [Hc' Ho']. destruct Hdb as (He & Hi & Hw).
      unfold wf_rows.
      destruct (update_conflicting_keys e c' o' rows) as [-> ->].
      split; [exact He|split; [exact Hi|]]. now apply update_conflicting_wf.
    + destruct (new_rowid d rows) as [i|] eqn:Hnew; simpl; auto.
      destruct Hdb as (He & Hi & Hw).
      destruct (new_rowid_fresh _ _ _ Hw Hnew) as [Hrange Hfresh].
      rewrite no_match_existsb in Hex.
      unfold wf_rows. split; [|split].
      * rewrite map_app. simpl. apply NoDup_app; auto.
        -- constructor; [intros []|constructor].
        -- intros x Hx [<-|[]]. apply in_map_iff in Hx.
           destruct Hx as (r & Hr & Hin). now apply (Hex r Hin).
      * rewrite map_app. simpl. apply NoDup_app; auto.
        -- constructor; [intros []|constructor].
        -- intros x Hx [<-|[]]. now apply Hfresh.
      * apply Forall_app. split; auto.
        constructor; [|constructor].
        split; [exact Hrange|split; assumption].
  - destruct db as [|rows|]; simpl; auto.
    destruct Hdb as (He & Hi & Hw). unfold wf_rows.
    destruct (set_opt_out_keys e o rows) as [-> ->].
    split; [exact He|split; [exact Hi|]].
    rewrite Forall_forall in *. intros r Hr.
    apply in_map_iff in Hr. destruct Hr as (x & <- & Hx).
    specialize (Hw x Hx). destruct (has_email e x); auto.
    destruct Hw as (Hid & Hc & _). split; [exact Hid|split; assumption].
Qed.

Lemma Exec_wf (d : Driver) (db : DB) (s : statement) :
  wf_DB db -> wf_statement s -> wf_DB (fst (Exec d db s)).
Proof.
  intros Hdb Hs. unfold Exec. destruct (fault d); simpl; auto.
  now apply exec_statement_wf.
Qed.

(** Every function of the package keeps the invariant, whatever the
    driver does and whatever the arguments are. *)
Theorem wf_TryCreate (d : Driver) (db : DB) :
  wf_DB db -> wf_DB (fst (TryCreate d db)).
Proof.
  intros Hdb. unfold TryCreate.
  pose proof (Exec_wf d db CREATE_TABLE_emails Hdb I) as H.
  destruct (Exec d db CREATE_TABLE_emails) as [db' [e|]]; simpl in *; auto.
  destruct e; simpl; auto. destruct (negb (Code =? 1)); auto.
Qed.

Theorem wf_CreateEmail (d : Driver) (db : DB) (addr : string) :
  wf_DB db -> wf_DB (fst (CreateEmail d db addr)).
Proof.
  intros Hdb. unfold CreateEmail.
  pose proof (Exec_wf d db (INSERT_INTO_emails (VALUES_ROW addr 0 FALSE) ABORT)
                Hdb (conj I I)) as H.
  destruct (Exec d db _) as [db' [e|]]; auto.
Qed.

Theorem wf_UpdateEmail (d : Driver) (db : DB) (entry : EmailEntry) :
  wf_DB db -> wf_DB (fst (UpdateEmail d db entry)).
Proof.
  intros Hdb. unfold UpdateEmail.
  destruct (ConfirmedAt entry) as [t|]; auto.
  assert (Hs : wf_statement
                 (INSERT_INTO_emails
                    (VALUES (Email entry) (Time_Unix t) (bind_bool (OptOut entry)))
                    (ON_CONFLICT_email_DO_UPDATE_SET
                       (Time_Unix t) (bind_bool (OptOut entry))))).
  { assert (Hb : bind_bool (OptOut entry) = 0 \/ bind_bool (OptOut entry) = 1)
      by (destruct (OptOut entry); simpl; auto).
    pose proof (wrap64_in_range (sec t + internalToUnix)) as Hw.
    split; split; assumption. }
  pose proof (Exec_wf d db _ Hdb Hs) as H.
  destruct (Exec d db _) as [db' [e|]]; auto.
Qed.

Theorem wf_DeleteEmail (d : Driver) (db : DB) (addr : string) :
  wf_DB db -> wf_DB (fst (DeleteEmail d db addr)).
Proof.
  intros Hdb. unfold DeleteEmail.
  pose proof (Exec_wf d db (UPDATE_emails_SET_opt_out TRUE addr) Hdb
                (or_intror eq_refl)) as H.
  destruct (Exec d db _) as [db' [e|]]; auto.
Qed.

End Invariant.

(* ================================================================== *)
(** ** Reading rows *)

Section Reading.

Lemma emailEntryFromRow_flag (r : Row) :
  flag r -> emailEntryFromRow r = (Some (entry_of_row r), None).
Proof.
  unfold emailEntryFromRow, Scan, entry_of_row.
  intros [H|H]; rewrite H; reflexivity.
Qed.

(** Whenever the row mapper hands out an entry, it is the entry of the
    row, there is no error, and the flag of the row is 0 or 1. *)
Lemma emailEntryFromRow_Some (r : Row) (e : EmailEntry) (err : option error) :
  emailEntryFromRow r = (Some e, err) ->
  e = entry_of_row r /\ err = None /\ flag r.
Proof.
  unfold emailEntryFromRow, Scan, entry_of_row, flag.
  destruct (opt_out r =? 0) eqn:H0.
  - apply Z.eqb_eq in H0. rewrite H0. intros [= <- <-]. auto.
  - destruct (opt_out r =? 1) eqn:H1; [|discriminate].
    apply Z.eqb_eq in H1. rewrite H1. intros [= <- <-]. auto.
Qed.

Lemma emailEntryFromRow_total (r : Row) :
  emailEntryFromRow r = (Some (entry_of_row r), None) \/
  exists err, emailEntryFromRow r = (None, Some err).
Proof.
  unfold emailEntryFromRow, Scan, entry_of_row.
  destruct (opt_out r =? 0) eqn:H0.
  - apply Z.eqb_eq in H0. rewrite H0. now left.
  - destruct (opt_out r =? 1) eqn:H1.
    + now left.
    + right. eexists. reflexivity.
Qed.

Lemma GetEmailBatch_loop_flags (rows : list Row) (emails : list EmailEntry) :
  Forall flag rows ->
  GetEmailBatch_loop rows emails = Return (emails ++ map entry_of_row rows, None).
Proof.
  intros H. revert emails.
  induction H as [|r rows Hr Hrows IH]; intros emails; simpl.
  - now rewrite app_nil_r.
  - rewrite (emailEntryFromRow_flag r Hr), IH, <- app_assoc. reflexivity.
Qed.

(** The loop never runs into the nil case of the row mapper, and what it
    returns without error is what it had plus entries of rows. *)
Lemma GetEmailBatch_loop_Return (rows : list Row) (emails out : list EmailEntry)
      (err : option error) :
  GetEmailBatch_loop rows emails = Return (out, err) ->
  forall e, In e out -> In e emails \/ exists r, In r rows /\ e = entry_of_row r.
Proof.
  revert emails. induction rows as [|r rows IH]; intros emails; simpl.
  - intros [= <- <-] e He. now left.
  - destruct (emailEntryFromRow_total r) as [->|[x ->]].
    + intros H e He. destruct (IH _ H e He) as [Hin|(r' & Hr' & ->)].
      * apply in_app_or in Hin. destruct Hin as [Hin|[<-|[]]]; [now left|].
        right. exists r. split; [now left|reflexivity].
      * right. exists r'. split; [now right|reflexivity].
    + intros [= <- <-] e [].
Qed.

Lemma in_firstn {A : Type} (n : nat) (l : list A) (a : A) :
  In a (firstn n l) -> In a l.
Proof.
  intros H. rewrite <- (firstn_skipn n l). apply in_or_app. now left.
Qed.

Lemma in_skipn {A : Type} (n : nat) (l : list A) (a : A) :
  In a (skipn n l) -> In a l.
Proof.
  intros H. rewrite <- (firstn_skipn n l). apply in_or_app. now right.
Qed.

Lemma limit_offset_incl (limit offset : Z) (l : list Row) (r : Row) :
  In r (limit_offset limit offset l) -> In r l.
Proof.
  unfold limit_offset. intros H.
  destruct (limit <? 0).
  - now apply in_skipn in H.
  - now apply in_firstn, in_skipn in H.
Qed.

(** The rows a caller gets to see are a prefix of the result set. *)
Lemma Query_rows (d : Driver) (db : DB) (q : query) (l : list Row) :
  Query d db q = inl l ->
  exists rows all k,
    db = Emails rows /\ run_query db q = inl all /\ l = firstn k all.
Proof.
  unfold Query. intros H.
  assert (Hrun : forall all, run_query db q = inl all ->
                 exists rows, db = Emails rows).
  { intros all Hall. destruct db as [|rows|]; try discriminate. now exists rows. }
  destruct (fault d) as [x|].
  - destruct (at_row d) as [k|]; [|discriminate].
    destruct (run_query db q) as [all|y] eqn:Hq; [|discriminate].
    injection H as <-. destruct (Hrun all eq_refl) as [rows ->].
    now exists rows, all, k.
  - destruct (Hrun l H) as [rows ->].
    exists rows, l, (List.length l). repeat split; [exact H|].
    now rewrite firstn_all.
Qed.

Lemma firstn_head {A : Type} (k : nat) (l t : list A) (x : A) :
  firstn k l = x :: t -> exists t', l = x :: t'.
Proof.
  destruct k as [|k]; [discriminate|].
  destruct l as [|y l]; [discriminate|].
  simpl. intros [= -> _]. now exists l.
Qed.

Lemma limit_offset_window (limit offset : Z) (l : list Row) :
  0 <= limit -> 0 <= offset ->
  limit_offset limit offset l
  = firstn (Z.to_nat limit) (skipn (Z.to_nat offset) l).
Proof.
  intros Hl Ho. unfold limit_offset.
  destruct (limit <? 0) eqn:H; [apply Z.ltb_lt in H; lia|].
  now rewrite Z.max_r by lia.
Qed.

End Reading.

(* ================================================================== *)
(** ** Schema creation: TryCreate *)

Section Schema.

(** TryCreate returns exactly when the statement succeeded or failed with
    a sqlite3.Error of primary code 1; it ends the process otherwise. *)
Lemma TryCreate_outcome (d : Driver) (db : DB) :
  match snd (Exec d db CREATE_TABLE_emails) with
  | None => snd (TryCreate d db) = Return tt
  | Some (SqliteError 1 x m) => snd (TryCreate d db) = Return tt
  | Some e => snd (TryCreate d db) = Fatal e
  end.
Proof.
  unfold TryCreate.
  destruct (Exec d db CREATE_TABLE_emails) as [db' [e|]]; simpl; [|reflexivity].
  destruct e as [c x m|c m|m]; simpl; try reflexivity.
  destruct (c =? 1) eqn:Hc.
  - apply Z.eqb_eq in Hc. subst c. reflexivity.
  - simpl. apply Z.eqb_neq in Hc.
    destruct c as [|[p|p|]|p]; try reflexivity. congruence.
Qed.

(** On a database without the table, TryCreate creates it empty. *)
Lemma TryCreate_creates (d : Driver) :
  fault d = None -> TryCreate d NoRelation = (Emails [], Return tt).
Proof. intros H. unfold TryCreate, Exec. now rewrite H. Qed.

(** Once the table exists, TryCreate returns and changes nothing: the
    error is "table emails already exists", of code 1. *)
Lemma TryCreate_again (d : Driver) (rows : list Row) :
  fault d = None -> TryCreate d (Emails rows) = (Emails rows, Return tt).
Proof. intros H. unfold TryCreate, Exec. now rewrite H. Qed.

(** X4.  A failure of the driver that is not a sqlite3.Error, or that is
    one with a code other than 1, makes TryCreate end the process with
    log.Fatal on that error, and the database is as it was. *)
Lemma TryCreate_fatal (d : Driver) (db : DB) (e : error) :
  fault d = Some e ->
  (forall x m, e <> SqliteError 1 x m) ->
  TryCreate d db = (db, Fatal e).
Proof.
  intros H Hne. unfold TryCreate, Exec. rewrite H.
  destruct e as [c x m|c m|m]; try reflexivity.
  destruct (c =? 1) eqn:Hc; [|reflexivity].
  apply Z.eqb_eq in Hc. subst c. now destruct (Hne x m).
Qed.

(** C6 (the defect).  When an index of the database is named emails, the
    CREATE TABLE statement fails with "there is already an index named
    emails", which is not the error "table emails already exists"; it
    carries the same code 1, so TryCreate returns normally instead of
    ending the process, and no table emails exists afterwards. *)
Theorem TryCreate_index_clash_swallowed :
  Exec healthy IndexNamedEmails CREATE_TABLE_emails
    = (IndexNamedEmails, Some index_already_exists) /\
  index_already_exists <> table_already_exists /\
  TryCreate healthy IndexNamedEmails = (IndexNamedEmails, Return tt).
Proof.
  split; [reflexivity|]. split; [discriminate|reflexivity].
Qed.

End Schema.

(* ================================================================== *)
(** ** GetEmail *)

Section Get.

Lemma GetEmail_absent (d : Driver) (rows : list Row) (addr : string) :
  fault d = None ->
  (forall r, In r rows -> email r <> addr) ->
  GetEmail d (Emails rows) addr = (None, None).
Proof.
  intros Hd Hno. unfold GetEmail, Query. rewrite Hd. simpl.
  now rewrite (filter_no_match _ _ Hno).
Qed.

Lemma GetEmail_first (d : Driver) (before after : list Row) (r : Row) (addr : string) :
  fault d = None ->
  (forall x, In x before -> email x <> addr) -> email r = addr -> flag r ->
  GetEmail d (Emails (before ++ r :: after)) addr = (Some (entry_of_row r), None).
Proof.
  intros Hd Hb Hr Hf. unfold GetEmail, Query. rewrite Hd. simpl.
  rewrite (filter_first_match _ _ _ _ Hb Hr).
  now apply emailEntryFromRow_flag.
Qed.

Lemma unique_email (rows : list Row) (r r' : Row) :
  NoDup (map email rows) -> In r rows -> In r' rows -> email r = email r' -> r = r'.
Proof.
  induction rows as [|x rows IH]; simpl; [tauto|].
  intros Hnd Hr Hr' He. apply NoDup_cons_iff in Hnd. destruct Hnd as [Hx Hnd].
  destruct Hr as [<-|Hr], Hr' as [<-|Hr']; auto.
  - exfalso. apply Hx. rewrite He. now apply in_map.
  - exfalso. apply Hx. rewrite <- He. now apply in_map.
Qed.

(** C7.  On the table kept by this package (unique addresses, flags 0 or
    1) and with a driver that works: GetEmail of an address without a row
    returns nil and no error; GetEmail of an address with a row returns
    the entry of that row and no error, and that row is the only one with
    the address. *)
Theorem GetEmail_absent_or_the_row (d : Driver) (rows : list Row) (addr : string) :
  fault d = None -> wf_rows rows ->
  ((forall r, In r rows -> email r <> addr) ->
   GetEmail d (Emails rows) addr = (None, None)) /\
  (forall r, In r rows -> email r = addr ->
   GetEmail d (Emails rows) addr = (Some (entry_of_row r), None) /\
   forall r', In r' rows -> email r' = addr -> r' = r).
Proof.
  intros Hd (Hemails & _ & Hwf). split.
  - now apply GetEmail_absent.
  - intros r Hin Hr.
    assert (Huniq : forall r', In r' rows -> email r' = addr -> r' = r).
    { intros r' Hin' Hr'. apply (unique_email rows); auto. congruence. }
    split; [|exact Huniq].
    assert (Hex : existsb (has_email addr) rows = true).
    { apply existsb_exists. exists r. split; [exact Hin|now apply has_email_true]. }
    destruct (first_match _ _ Hex) as (before & r0 & after & Hrows & Hr0 & Hb).
    assert (r0 = r) as ->.
    { apply Huniq; [|exact Hr0]. rewrite Hrows. apply in_or_app. right. now left. }
    rewrite Hrows. apply GetEmail_first; auto.
    rewrite Forall_forall in Hwf. now destruct (Hwf r Hin) as (_ & _ & Hf).
Qed.

Lemma one_row_wf : wf_rows one_row.
Proof.
  unfold one_row, wf_rows. simpl. split; [|split].
  - constructor; [intros []|constructor].
  - constructor; [intros []|constructor].
  - constructor; [|constructor].
    unfold wf_row, in_int64, min_int64, max_int64. simpl. lia.
Qed.

Lemma GetEmail_absent_or_the_row_witness :
  GetEmail healthy (Emails one_row) "b@x.com" = (None, None) /\
  GetEmail healthy (Emails one_row) "a@x.com"
  = (Some (mkEmailEntry 1 "a@x.com" (Some (Unix 0 0)) false), None).
Proof.
  destruct (GetEmail_absent_or_the_row healthy one_row "b@x.com" eq_refl one_row_wf)
    as [Habsent _].
  destruct (GetEmail_absent_or_the_row healthy one_row "a@x.com" eq_refl one_row_wf)
    as [_ Hrow].
  split.
  - apply Habsent. intros r [<-|[]]. discriminate.
  - exact (proj1 (Hrow (mkRow 1 "a@x.com" 0 0) (or_introl eq_refl) eq_refl)).
Defined.

End Get.

(* ================================================================== *)
(** ** CreateEmail *)

Section Create.

(** Whatever the database and the driver, CreateEmail returns an error and
    leaves the database as it was: its VALUES clause has one term for
    three columns. *)
Lemma CreateEmail_never_inserts (d : Driver) (db : DB) (addr : string) :
  exists err, CreateEmail d db addr = (db, Some err).
Proof.
  unfold CreateEmail, Exec. destruct (fault d) as [e|].
  - now exists e.
  - destruct db; simpl; eexists; reflexivity.
Qed.

(** On the table, without a fault, the error is SQLITE_ERROR, not the
    constraint violation, also when the address is already there. *)
Lemma CreateEmail_error_code (d : Driver) (rows : list Row) (addr : string) :
  fault d = None ->
  CreateEmail d (Emails rows) addr = (Emails rows, Some values_for_columns).
Proof. intros H. unfold CreateEmail, Exec. now rewrite H. Qed.

(** C1 (the defect).  CreateEmail of a fresh address on the empty table,
    with a driver that works, inserts no row and returns the error
    "1 values for 3 columns" (code 1); GetEmail of the address afterwards
    finds nothing. *)
Theorem CreateEmail_fresh_email_rejected :
  CreateEmail healthy (Emails []) "a@x.com"
  = (Emails [], Some values_for_columns) /\
  GetEmail healthy (fst (CreateEmail healthy (Emails []) "a@x.com")) "a@x.com"
  = (None, None).
Proof.
  assert (H : CreateEmail healthy (Emails []) "a@x.com"
              = (Emails [], Some values_for_columns))
    by (apply CreateEmail_error_code; reflexivity).
  split; [exact H|].
  rewrite H. apply GetEmail_absent; [reflexivity|]. intros r [].
Qed.

(** The sibling statement of UpdateEmail, VALUES (?, ?, ?), does insert
    the row for the same address. *)
Lemma UpdateEmail_fresh_email_inserted :
  UpdateEmail healthy (Emails [])
    (mkEmailEntry 0 "a@x.com" (Some (Unix 0 0)) false)
  = (Emails [mkRow 1 "a@x.com" 0 0], Return None).
Proof. reflexivity. Qed.

End Create.

(* ================================================================== *)
(** ** UpdateEmail *)

Section Upsert.

Lemma bind_bool_flag (b : bool) : (bind_bool b =? 1) = b.
Proof. now destruct b. Qed.

Lemma UpdateEmail_update (d : Driver) (before after : list Row) (r : Row)
      (entry : EmailEntry) (t : Time) :
  fault d = None -> ConfirmedAt entry = Some t ->
  (forall x, In x before -> email x <> Email entry) -> email r = Email entry ->
  UpdateEmail d (Emails (before ++ r :: after)) entry
  = (Emails (before ++ mkRow (id r) (email r) (Time_Unix t)
                              (bind_bool (OptOut entry)) :: after),
     Return None).
Proof.
  intros Hd Ht Hb Hr. unfold UpdateEmail, Exec. rewrite Ht, Hd. simpl.
  rewrite (existsb_at _ before after r Hr).
  now rewrite (update_conflicting_at _ _ _ _ _ _ Hb Hr).
Qed.

Lemma UpdateEmail_insert (d : Driver) (rows : list Row) (entry : EmailEntry)
      (t : Time) (i : Z) :
  fault d = None -> ConfirmedAt entry = Some t ->
  (forall x, In x rows -> email x <> Email entry) -> new_rowid d rows = Some i ->
  UpdateEmail d (Emails rows) entry
  = (Emails (rows ++ [mkRow i (Email entry) (Time_Unix t)
                            (bind_bool (OptOut entry))]),
     Return None).
Proof.
  intros Hd Ht Hno Hi. unfold UpdateEmail, Exec. rewrite Ht, Hd. simpl.
  apply no_match_existsb in Hno. now rewrite Hno, Hi.
Qed.

(** C3.  When the table has a row for the address of the entry (and the
    entry carries a time, and the driver works), UpdateEmail returns no
    error and the table afterwards is the table before with, in place of
    the row of that address, a row of the same id and the same email whose
    confirmed_at and opt_out are those of the entry: the rows before and
    after it are the same, and the ids and emails of the table, hence the
    number of rows, are unchanged. *)
Theorem UpdateEmail_existing_row (d : Driver) (rows : list Row)
        (entry : EmailEntry) (t : Time) :
  fault d = None -> ConfirmedAt entry = Some t ->
  existsb (has_email (Email entry)) rows = true ->
  exists before r after rows',
    rows = before ++ r :: after /\
    email r = Email entry /\
    (forall x, In x before -> email x <> Email entry) /\
    UpdateEmail d (Emails rows) entry = (Emails rows', Return None) /\
    rows' = before ++ mkRow (id r) (email r) (Time_Unix t)
                            (bind_bool (OptOut entry)) :: after /\
    map id rows' = map id rows /\
    map email rows' = map email rows /\
    List.length rows' = List.length rows.
Proof.
  intros Hd Ht Hex.
  destruct (first_match _ _ Hex) as (before & r & after & -> & Hr & Hb).
  exists before, r, after.
  exists (before ++ mkRow (id r) (email r) (Time_Unix t)
                          (bind_bool (OptOut entry)) :: after).
  split; [reflexivity|].
  split; [exact Hr|]. split; [exact Hb|].
  split; [now apply UpdateEmail_update|]. split; [reflexivity|].
  rewrite !map_app, !length_app. simpl. auto.
Qed.

Lemma UpdateEmail_existing_row_witness :
  exists before r after rows',
    two_rows = before ++ r :: after /\
    email r = "b@x.com" /\
    (forall x, In x before -> email x <> "b@x.com") /\
    UpdateEmail healthy (Emails two_rows) entry_b = (Emails rows', Return None) /\
    rows' = before ++ mkRow (id r) (email r) (Time_Unix (Unix 1700000000 0))
                            (bind_bool true) :: after /\
    map id rows' = map id two_rows /\
    map email rows' = map email two_rows /\
    List.length rows' = List.length two_rows.
Proof.
  exact (UpdateEmail_existing_row healthy two_rows entry_b (Unix 1700000000 0)
           eq_refl eq_refl eq_refl).
Defined.

(** C9.  For an entry whose ConfirmedAt is nil, UpdateEmail panics with a
    nil dereference, whatever the driver and the database, and the
    database is the one it was given: no statement was sent. *)
Theorem UpdateEmail_nil_ConfirmedAt (d : Driver) (db : DB) (entry : EmailEntry) :
  ConfirmedAt entry = None ->
  UpdateEmail d db entry = (db, Panic nil_dereference).
Proof.
  intros Hnil. unfold UpdateEmail. rewrite Hnil. reflexivity.
Qed.

Lemma UpdateEmail_nil_ConfirmedAt_witness :
  UpdateEmail healthy (Emails two_rows) (mkEmailEntry 0 "b@x.com" None true)
  = (Emails two_rows, Panic nil_dereference).
Proof.
  apply (UpdateEmail_nil_ConfirmedAt healthy (Emails two_rows)
           (mkEmailEntry 0 "b@x.com" None true)).
  reflexivity.
Defined.

(** With a time, UpdateEmail never panics. *)
Lemma UpdateEmail_returns (d : Driver) (db : DB) (entry : EmailEntry) :
  ConfirmedAt entry <> None ->
  exists db' err, UpdateEmail d db entry = (db', Return err).
Proof.
  intros H. unfold UpdateEmail. destruct (ConfirmedAt entry); [|congruence].
  destruct (Exec d db _) as [db' [e|]]; eauto.
Qed.

(** C8.  Let an entry carry a time with no fraction of a second, and let
    the driver work for both calls; on the table, when the address has a
    row or a rowid is left for a new one, UpdateEmail returns no error and
    GetEmail of the address then returns an entry whose ConfirmedAt is the
    same instant (Time.Equal) with the same Unix seconds. *)
Theorem UpdateEmail_GetEmail_roundtrip (d d' : Driver) (rows : list Row)
        (entry : EmailEntry) (t : Time) :
  fault d = None -> fault d' = None ->
  ConfirmedAt entry = Some t -> wf_Time t -> nsec t = 0 ->
  (existsb (has_email (Email entry)) rows = true \/ new_rowid d rows <> None) ->
  exists db' e t',
    UpdateEmail d (Emails rows) entry = (db', Return None) /\
    GetEmail d' db' (Email entry) = (Some e, None) /\
    ConfirmedAt e = Some t' /\
    Equal t t' = true /\
    Time_Unix t' = Time_Unix t /\
    OptOut e = OptOut entry.
Proof.
  intros Hd Hd' Ht Hwf Hn Hroom.
  destruct (existsb (has_email (Email entry)) rows) eqn:Hex.
  - destruct (first_match _ _ Hex) as (before & r & after & -> & Hr & Hb).
    eexists. eexists. exists (Unix (Time_Unix t) 0).
    split; [apply (UpdateEmail_update d before after r entry t); assumption|].
    split.
    + apply GetEmail_first; auto. unfold flag. simpl.
      destruct (OptOut entry); auto.
    + simpl. split; [reflexivity|].
      split; [now apply Equal_Unix_of_Time_Unix|].
      split; [now apply Time_Unix_roundtrip|apply bind_bool_flag].
  - destruct Hroom as [Hc|Hroom]; [discriminate|].
    destruct (new_rowid d rows) as [i|] eqn:Hi; [|congruence].
    rewrite no_match_existsb in Hex.
    eexists. eexists. exists (Unix (Time_Unix t) 0).
    split; [apply (UpdateEmail_insert d rows entry t i); assumption|].
    split.
    + apply GetEmail_first; auto. unfold flag. simpl.
      destruct (OptOut entry); auto.
    + simpl. split; [reflexivity|].
      split; [now apply Equal_Unix_of_Time_Unix|].
      split; [now apply Time_Unix_roundtrip|apply bind_bool_flag].
Qed.

Lemma utc_2023_wf : wf_Time utc_2023.
Proof.
  unfold wf_Time, in_uint64, in_int64, min_int64, max_int64, utc_2023.
  simpl. lia.
Qed.

Lemma UpdateEmail_GetEmail_roundtrip_witness :
  exists db' e t',
    UpdateEmail healthy (Emails two_rows)
      (mkEmailEntry 0 "c@x.com" (Some utc_2023) false) = (db', Return None) /\
    GetEmail healthy db' "c@x.com" = (Some e, None) /\
    ConfirmedAt e = Some t' /\
    Equal utc_2023 t' = true /\
    Time_Unix t' = Time_Unix utc_2023 /\
    OptOut e = false.
Proof.
  apply (UpdateEmail_GetEmail_roundtrip healthy healthy two_rows
           (mkEmailEntry 0 "c@x.com" (Some utc_2023) false) utc_2023
           eq_refl eq_refl eq_refl utc_2023_wf eq_refl).
  right. vm_compute. discriminate.
Defined.

End Upsert.

(* ================================================================== *)
(** ** DeleteEmail *)

Section SoftDelete.

Lemma mark_opted_out (addr : string) (rows : list Row) :
  Forall2 (opted_out addr) rows (map (mark addr) rows).
Proof.
  induction rows as [|r rows IH]; simpl; constructor; [|exact IH].
  unfold opted_out, mark. destruct (has_email addr r); simpl; auto.
Qed.

Lemma mark_no_match (addr : string) (rows : list Row) :
  (forall r, In r rows -> email r <> addr) -> map (mark addr) rows = rows.
Proof.
  induction rows as [|r rows IH]; simpl; intros H; [reflexivity|].
  unfold mark at 1.
  assert (Hr : has_email addr r = false) by (apply has_email_false, H; now left).
  rewrite Hr. f_equal. apply IH. intros x Hx. apply H. now right.
Qed.

Lemma DeleteEmail_table (d : Driver) (rows : list Row) (addr : string) :
  fault d = None ->
  DeleteEmail d (Emails rows) addr = (Emails (map (mark addr) rows), None).
Proof. intros Hd. unfold DeleteEmail, Exec. now rewrite Hd. Qed.

(** C5.  On the table and with a driver that works, DeleteEmail returns no
    error; the table afterwards has the same rows in the same places, each
    with its id, email and confirmed_at, and with opt_out = 1 when its
    email is the address and its old opt_out otherwise.  When no row has
    the address the table is unchanged.  When a row has it, GetEmail
    afterwards returns the entry of that row with OptOut true. *)
Theorem DeleteEmail_sets_flag (d d' : Driver) (rows : list Row) (addr : string) :
  fault d = None -> fault d' = None ->
  exists rows',
    DeleteEmail d (Emails rows) addr = (Emails rows', None) /\
    Forall2 (opted_out addr) rows rows' /\
    ((forall r, In r rows -> email r <> addr) -> rows' = rows) /\
    (existsb (has_email addr) rows = true ->
     exists r, In r rows /\ email r = addr /\
       GetEmail d' (Emails rows') addr
       = (Some (mkEmailEntry (id r) addr (Some (Unix (confirmed_at r) 0)) true),
          None)).
Proof.
  intros Hd Hd'. exists (map (mark addr) rows).
  split; [now apply DeleteEmail_table|].
  split; [apply mark_opted_out|].
  split; [apply mark_no_match|].
  intros Hex.
  destruct (first_match _ _ Hex) as (before & r & after & -> & Hr & Hb).
  exists r. split; [apply in_or_app; right; now left|]. split; [exact Hr|].
  rewrite map_app. simpl. rewrite (mark_no_match _ _ Hb).
  assert (Hm : mark addr r = set_opt_out TRUE r).
  { unfold mark. apply has_email_true in Hr. now rewrite Hr. }
  rewrite Hm.
  rewrite (GetEmail_first d' before (map (mark addr) after)
             (set_opt_out TRUE r) addr Hd' Hb Hr (or_intror eq_refl)).
  unfold entry_of_row. simpl. now rewrite Hr.
Qed.

Lemma DeleteEmail_sets_flag_witness :
  exists rows',
    DeleteEmail healthy (Emails two_rows) "b@x.com" = (Emails rows', None) /\
    Forall2 (opted_out "b@x.com") two_rows rows' /\
    ((forall r, In r two_rows -> email r <> "b@x.com") -> rows' = two_rows) /\
    (existsb (has_email "b@x.com") two_rows = true ->
     exists r, In r two_rows /\ email r = "b@x.com" /\
       GetEmail healthy (Emails rows') "b@x.com"
       = (Some (mkEmailEntry (id r) "b@x.com"
                  (Some (Unix (confirmed_at r) 0)) true), None)).
Proof.
  exact (DeleteEmail_sets_flag healthy healthy two_rows "b@x.com" eq_refl eq_refl).
Defined.

(** The rows GetEmailBatch selects no longer include a row marked so. *)
Lemma DeleteEmail_example :
  DeleteEmail healthy (Emails two_rows) "b@x.com"
  = (Emails [mkRow 1 "a@x.com" 0 0; mkRow 2 "b@x.com" 5 1], None) /\
  GetEmailBatch healthy (Emails [mkRow 1 "a@x.com" 0 0; mkRow 2 "b@x.com" 5 1])
                (mkParams 1 10)
  = Return ([mkEmailEntry 1 "a@x.com" (Some (Unix 0 0)) false], None).
Proof. split; reflexivity. Qed.

End SoftDelete.

(* ================================================================== *)
(** ** Entries handed out by the reads *)

Section Entries.

Lemma handed_out_row (d : Driver) (db : DB) (addr : string)
      (params : GetEmailBatchQueryParams) (e : EmailEntry) :
  handed_out d db addr params e -> exists r, e = entry_of_row r.
Proof.
  intros [[err H]|(es & err & H & Hin)].
  - unfold GetEmail in H. destruct (Query d db _) as [rows|x]; [|discriminate].
    destruct rows as [|r rows]; [discriminate|].
    apply emailEntryFromRow_Some in H. exists r. tauto.
  - unfold GetEmailBatch in H. destruct (Query d db _) as [rows|x].
    + destruct (makeslice_panics (Count params)); [discriminate|].
      destruct (GetEmailBatch_loop_Return _ _ _ _ H e Hin) as [[]|(r & _ & Hr)].
      now exists r.
    + injection H as <- _. destruct Hin.
  Qed.

(** C10.  An entry returned by GetEmail or contained in the result of
    GetEmailBatch has a ConfirmedAt that is not nil: it points to the time
    time.Unix builds from the stored integer of its row, and for the
    stored 0 that time is the epoch, Unix second 0. *)
Theorem ConfirmedAt_not_nil (d : Driver) (db : DB) (addr : string)
        (params : GetEmailBatchQueryParams) (e : EmailEntry) :
  handed_out d db addr params e ->
  ConfirmedAt e <> None /\
  exists r, Id e = id r /\ ConfirmedAt e = Some (Unix (confirmed_at r) 0) /\
            (confirmed_at r = 0 ->
             ConfirmedAt e = Some (Unix 0 0) /\ Time_Unix (Unix 0 0) = 0).
Proof.
  intros H. destruct (handed_out_row _ _ _ _ _ H) as [r ->]. split.
  - discriminate.
  - exists r. split; [reflexivity|]. split; [reflexivity|].
    intros H0. simpl. rewrite H0. split; reflexivity.
Qed.

Lemma ConfirmedAt_not_nil_witness :
  ConfirmedAt (mkEmailEntry 1 "a@x.com" (Some (Unix 0 0)) false) <> None.
Proof.
  refine (proj1 (ConfirmedAt_not_nil healthy (Emails one_row) "a@x.com"
                   (mkParams 1 10) _ _)).
  left. exists None. reflexivity.
Defined.

End Entries.

(* ================================================================== *)
(** ** GetEmailBatch *)

Section Batch.

Lemma filter_subscribed_flags (rows l : list Row) :
  (forall r, In r l -> In r (filter subscribed rows)) -> Forall flag l.
Proof.
  intros H. apply Forall_forall. intros r Hr.
  apply H, filter_In in Hr. destruct Hr as [_ Hr].
  apply Z.eqb_eq in Hr. now left.
Qed.

(** What GetEmailBatch returns for a count that is not negative, in terms
    of the offset it sends. *)
Lemma makeslice_fits (count : Z) :
  fits_make count <-> makeslice_panics count = false.
Proof.
  unfold fits_make, makeslice_panics. rewrite orb_false_iff, Z.ltb_ge, Z.ltb_ge.
  tauto.
Qed.

Lemma GetEmailBatch_sent (d : Driver) (rows : list Row) (page count : Z) :
  fault d = None -> fits_make count ->
  GetEmailBatch d (Emails rows) (mkParams page count)
  = Return (map entry_of_row
              (firstn (Z.to_nat count)
                 (skipn (Z.to_nat (Z.max 0 (wrap64 (wrap64 (page - 1) * count))))
                    (order_by_id (filter subscribed rows)))),
            None).
Proof.
  intros Hd Hc. unfold GetEmailBatch, Query. rewrite Hd. simpl.
  rewrite (proj1 (makeslice_fits count) Hc). destruct Hc as [Hc _].
  destruct (count <? 0) eqn:Hneg; [apply Z.ltb_lt in Hneg; lia|].
  unfold limit_offset. rewrite Hneg.
  rewrite GetEmailBatch_loop_flags; [reflexivity|].
  apply (filter_subscribed_flags rows). intros r Hr.
  apply in_firstn, in_skipn in Hr.
  exact (Permutation_in _ (order_by_id_perm _) Hr).
Qed.

Lemma offset_exact (page count : Z) :
  1 <= page -> 1 <= count -> (page - 1) * count <= max_int64 ->
  wrap64 (wrap64 (page - 1) * count) = (page - 1) * count.
Proof.
  intros Hp Hc Hmax.
  assert (H1 : in_int64 (page - 1)).
  { unfold in_int64, min_int64, max_int64 in *. nia. }
  rewrite (wrap64_id _ H1). apply wrap64_id.
  unfold in_int64, min_int64, max_int64 in *. nia.
Qed.

(** C2, as amended.  With a driver that works, for page >= 1 and
    count >= 1 whose offset (page - 1) * count fits the int type and whose
    count is a capacity make accepts (count entries of 40 bytes within
    maxAlloc), GetEmailBatch returns no error and the window of that page:
    entries of rows with opt_out = 0, in ascending id, from position
    (page - 1) * count, at most count of them, all with OptOut false; the
    result is empty when the offset is not below the number of such rows. *)
Theorem GetEmailBatch_window (d : Driver) (rows : list Row) (page count : Z) :
  fault d = None -> 1 <= page -> 1 <= count ->
  (page - 1) * count <= max_int64 ->
  sizeof_EmailEntry * count <= maxAlloc ->
  exists out,
    GetEmailBatch d (Emails rows) (mkParams page count) = Return (out, None) /\
    batch_window rows page count out /\
    Forall (fun e => OptOut e = false) out /\
    (Z.of_nat (List.length (filter subscribed rows)) <= (page - 1) * count ->
     out = []).
Proof.
  intros Hd Hp Hc Hmax Hcap.
  pose proof (offset_exact page count Hp Hc Hmax) as Hoff.
  assert (H0 : 0 <= (page - 1) * count) by nia.
  assert (Hfits : fits_make count) by (split; [lia|exact Hcap]).
  eexists. split; [apply GetEmailBatch_sent; [exact Hd|exact Hfits]|].
  rewrite Hoff, Z.max_r by exact H0.
  split; [|split].
  - exists (order_by_id (filter subscribed rows)).
    split; [apply order_by_id_perm|]. split; [apply order_by_id_sorted|reflexivity].
  - apply Forall_forall. intros e He. apply in_map_iff in He.
    destruct He as (r & <- & Hr). apply in_firstn, in_skipn in Hr.
    apply (Permutation_in _ (order_by_id_perm _)), filter_In in Hr.
    destruct Hr as [_ Hr]. apply Z.eqb_eq in Hr.
    unfold entry_of_row. simpl. now rewrite Hr.
  - intros Hlen. rewrite skipn_all2; [now rewrite firstn_nil|].
    rewrite (Permutation_length (order_by_id_perm _)). lia.
Qed.

Lemma GetEmailBatch_window_witness :
  exists out,
    GetEmailBatch healthy (Emails two_rows) (mkParams 2 1) = Return (out, None) /\
    batch_window two_rows 2 1 out /\
    Forall (fun e => OptOut e = false) out /\
    (Z.of_nat (List.length (filter subscribed two_rows)) <= (2 - 1) * 1 ->
     out = []).
Proof.
  apply (GetEmailBatch_window healthy two_rows 2 1 eq_refl);
    unfold max_int64, sizeof_EmailEntry, maxAlloc; lia.
Defined.

(** A capacity make refuses ends GetEmailBatch in a panic, after the
    query. *)
Lemma GetEmailBatch_make_panics (d : Driver) (rows : list Row) (page count : Z) :
  fault d = None -> makeslice_panics count = true ->
  GetEmailBatch d (Emails rows) (mkParams page count) = Panic makeslice_cap.
Proof.
  intros Hd Hc. unfold GetEmailBatch, Query. rewrite Hd. simpl.
  now rewrite Hc.
Qed.

(** C2, as stated, fails twice.  For page = 2^62 + 1 and count = 4 the
    product (page - 1) * count is 2^64 and the offset sent is 0, so the one
    row of the table is returned, while the window at position 2^64 is
    empty.  For page = 1 and count = 7036874417767 the query succeeds and
    make panics: nothing is returned. *)
Lemma GetEmailBatch_window_overflow :
  (1 <= 2 ^ 62 + 1 /\ 1 <= 4 /\ in_int64 (2 ^ 62 + 1) /\
   GetEmailBatch healthy (Emails one_row) (mkParams (2 ^ 62 + 1) 4)
   = Return ([mkEmailEntry 1 "a@x.com" (Some (Unix 0 0)) false], None) /\
   ~ returns_window healthy one_row (2 ^ 62 + 1) 4) /\
  (1 <= 1 /\ 1 <= 7036874417767 /\ in_int64 7036874417767 /\
   GetEmailBatch healthy (Emails one_row) (mkParams 1 7036874417767)
   = Panic makeslice_cap /\
   ~ returns_window healthy one_row 1 7036874417767).
Proof.
  split.
  - split; [lia|]. split; [lia|].
    split; [unfold in_int64, min_int64, max_int64; lia|].
    assert (Hrun : GetEmailBatch healthy (Emails one_row) (mkParams (2 ^ 62 + 1) 4)
                   = Return ([mkEmailEntry 1 "a@x.com" (Some (Unix 0 0)) false], None))
      by reflexivity.
    split; [exact Hrun|].
    intros (out & Hout & l & Hperm & _ & Hwin).
    rewrite Hrun in Hout. injection Hout as <-.
    apply Permutation_length in Hperm. simpl in Hperm.
    rewrite skipn_all2 in Hwin by lia.
    rewrite firstn_nil in Hwin. discriminate.
  - split; [lia|]. split; [lia|].
    split; [unfold in_int64, min_int64, max_int64; lia|].
    assert (Hrun : GetEmailBatch healthy (Emails one_row) (mkParams 1 7036874417767)
                   = Panic makeslice_cap)
      by (apply GetEmailBatch_make_panics; reflexivity).
    split; [exact Hrun|].
    intros (out & Hout & _). rewrite Hrun in Hout. discriminate.
Qed.

(** C4, as stated, fails: page = 0 and count = 0 give an empty result and
    no error. *)
Lemma GetEmailBatch_no_validation :
  (0 <= 0 \/ 0 <= 0) /\
  GetEmailBatch healthy (Emails one_row) (mkParams 0 0) = Return ([], None) /\
  ~ rejects healthy (Emails one_row) 0 0.
Proof.
  split; [now left|]. split; [reflexivity|].
  intros (out & e & H). discriminate.
Qed.

(** C4, as amended.  GetEmailBatch does not check page and count.  With a
    driver that works, on the table: for count = 0 it returns the empty
    slice and no error; for page <= 0 and count >= 1, when
    (page - 1) * count fits the int type and count is a capacity make
    accepts, the negative offset counts as 0 and it returns what page 1
    returns, with no error. *)
Theorem GetEmailBatch_unchecked (d : Driver) (rows : list Row) (page count : Z) :
  fault d = None ->
  (count = 0 \/
   (page <= 0 /\ 1 <= count /\ min_int64 <= (page - 1) * count /\
    sizeof_EmailEntry * count <= maxAlloc)) ->
  exists out,
    GetEmailBatch d (Emails rows) (mkParams page count) = Return (out, None) /\
    GetEmailBatch d (Emails rows) (mkParams 1 count) = Return (out, None) /\
    (count = 0 -> out = []).
Proof.
  intros Hd [->|(Hp & Hc & Hmin & Hcap)].
  - assert (Hfits : fits_make 0)
      by (unfold fits_make, sizeof_EmailEntry, maxAlloc; lia).
    exists []. rewrite !GetEmailBatch_sent by (exact Hd || exact Hfits).
    simpl. auto.
  - assert (Hfits : fits_make count) by (split; [lia|exact Hcap]).
    eexists. split; [apply GetEmailBatch_sent; [exact Hd|exact Hfits]|].
    split; [|lia].
    rewrite GetEmailBatch_sent by (exact Hd || exact Hfits).
    assert (H1 : in_int64 (page - 1)).
    { unfold in_int64, min_int64, max_int64 in *. nia. }
    assert (H2 : in_int64 ((page - 1) * count)).
    { unfold in_int64, min_int64, max_int64 in *. nia. }
    rewrite (wrap64_id _ H1), (wrap64_id _ H2).
    rewrite (Z.max_l 0 ((page - 1) * count))
      by (apply Z.mul_nonpos_nonneg; lia).
    replace (wrap64 (wrap64 (1 - 1) * count)) with 0; [reflexivity|].
    replace (1 - 1) with 0 by lia.
    rewrite (wrap64_id 0) by (unfold in_int64, min_int64, max_int64; lia).
    rewrite Z.mul_0_l.
    symmetry. apply wrap64_id. unfold in_int64, min_int64, max_int64; lia.
Qed.

Lemma GetEmailBatch_unchecked_witness :
  exists out,
    GetEmailBatch healthy (Emails two_rows) (mkParams (-3) 1) = Return (out, None) /\
    GetEmailBatch healthy (Emails two_rows) (mkParams 1 1) = Return (out, None) /\
    (1 = 0 -> out = []).
Proof.
  apply (GetEmailBatch_unchecked healthy two_rows (-3) 1 eq_refl).
  right. unfold min_int64, sizeof_EmailEntry, maxAlloc. lia.
Defined.

(** A negative count passes the query (no limit) and then panics in make. *)
Lemma GetEmailBatch_negative_count (d : Driver) (rows : list Row) (page count : Z) :
  fault d = None -> count < 0 ->
  GetEmailBatch d (Emails rows) (mkParams page count) = Panic makeslice_cap.
Proof.
  intros Hd Hc. apply GetEmailBatch_make_panics; [exact Hd|].
  unfold makeslice_panics. apply Z.ltb_lt in Hc. now rewrite Hc.
Qed.

Lemma pages_of_25 :
  (exists out, GetEmailBatch healthy (Emails rows_25) (mkParams 1 10)
               = Return (out, None) /\ map Id out = [1;2;3;4;5;6;7;8;9;10]) /\
  (exists out, GetEmailBatch healthy (Emails rows_25) (mkParams 3 10)
               = Return (out, None) /\ map Id out = [21;22;23;24;25]) /\
  GetEmailBatch healthy (Emails rows_25) (mkParams 4 10) = Return ([], None).
Proof.
  split; [|split]; [eexists; split; reflexivity ..|reflexivity].
Qed.

End Batch.

(* ================================================================== *)
(** ** Sequences of calls *)

Section Histories.

Lemma history_wf_from (db : DB) (calls : list (Driver * call)) :
  wf_DB db -> wf_DB (history db calls).
Proof.
  revert db. induction calls as [|[d c] calls IH]; intros db Hdb; simpl.
  - exact Hdb.
  - apply IH. unfold after. simpl. destruct c.
    + now apply wf_TryCreate.
    + now apply wf_CreateEmail.
    + now apply wf_UpdateEmail.
    + now apply wf_DeleteEmail.
Qed.

(** X1.  Whatever calls are made on a database that starts without the
    table, with whatever arguments and whatever the driver does in each
    call, the table never holds two rows with one email or one id, every id
    and confirmed_at is an int64 and every opt_out is 0 or 1. *)
Theorem history_wf (calls : list (Driver * call)) :
  wf_DB (history NoRelation calls).
Proof. apply history_wf_from. exact I. Qed.

(** One call on the table leaves the table, with the ids and emails of
    the rows it had in their places, followed by those of added rows. *)
Lemma after_keeps_rows (rows : list Row) (c : Driver * call) :
  exists rows' added,
    after (Emails rows) c = Emails rows' /\
    map id rows' = map id rows ++ map id added /\
    map email rows' = map email rows ++ map email added.
Proof.
  assert (Hsame : exists rows' added,
             Emails rows = Emails rows' /\
             map id rows' = map id rows ++ map id added /\
             map email rows' = map email rows ++ map email added).
  { exists rows, []. simpl. now rewrite !app_nil_r. }
  destruct c as [d c]. unfold after. simpl. destruct c as [|addr|entry|addr].
  - unfold TryCreate, Exec. destruct (fault d) as [e|]; simpl.
    + destruct e; simpl; try exact Hsame.
      destruct (negb (Code =? 1)); exact Hsame.
    + exact Hsame.
  - destruct (CreateEmail_never_inserts d (Emails rows) addr) as [err ->].
    exact Hsame.
  - unfold UpdateEmail. destruct (ConfirmedAt entry) as [t|]; [|exact Hsame].
    unfold Exec. destruct (fault d) as [e|]; [exact Hsame|]. simpl.
    destruct (existsb (has_email (Email entry)) rows).
    + simpl. eexists. exists []. split; [reflexivity|].
      destruct (update_conflicting_keys (Email entry) (Time_Unix t)
                  (bind_bool (OptOut entry)) rows) as [-> ->].
      simpl. now rewrite !app_nil_r.
    + destruct (new_rowid d rows) as [i|]; [|exact Hsame].
      simpl. eexists. eexists [_]. split; [reflexivity|].
      now rewrite !map_app.
  - unfold DeleteEmail, Exec. destruct (fault d) as [e|]; [exact Hsame|]. simpl.
    eexists. exists []. split; [reflexivity|].
    destruct (set_opt_out_keys addr TRUE rows) as [-> ->].
    simpl. now rewrite !app_nil_r.
Qed.

(** X2.  No sequence of calls removes a row, moves it, or changes its id
    or its email: after the calls the table still exists, and the ids and
    emails of the rows it had are a prefix of the ids and emails it has. *)
Theorem history_keeps_rows (rows : list Row) (calls : list (Driver * call)) :
  exists rows' added,
    history (Emails rows) calls = Emails rows' /\
    map id rows' = map id rows ++ map id added /\
    map email rows' = map email rows ++ map email added.
Proof.
  revert rows. induction calls as [|c calls IH]; intros rows; simpl.
  - exists rows, []. simpl. now rewrite !app_nil_r.
  - destruct (after_keeps_rows rows c) as (rows1 & added1 & -> & Hid1 & Hem1).
    destruct (IH rows1) as (rows2 & added2 & Hh & Hid2 & Hem2).
    exists rows2, (added1 ++ added2). split; [exact Hh|].
    rewrite Hid2, Hem2, Hid1, Hem1, !map_app, !app_assoc. now split.
Qed.

End Histories.

(* ================================================================== *)
(** ** Further properties of the writes *)

Section Writes.

(** X3.  With a driver that works, TryCreate on a database without the
    table creates the empty table and returns, and TryCreate on a database
    with the table returns and leaves every row as it is: calling it at each
    start of the process loses no data. *)
Theorem TryCreate_idempotent (d d' : Driver) (db : DB) :
  fault d = None -> fault d' = None -> db <> IndexNamedEmails ->
  exists rows,
    TryCreate d db = (Emails rows, Return tt) /\
    TryCreate d' (Emails rows) = (Emails rows, Return tt) /\
    (db = NoRelation -> rows = []) /\
    (forall old, db = Emails old -> rows = old).
Proof.
  intros Hd Hd' Hdb. destruct db as [|old|]; [| |congruence].
  - exists []. rewrite (TryCreate_creates d Hd), (TryCreate_again d' [] Hd').
    repeat split. intros old [=].
  - exists old. rewrite (TryCreate_again d old Hd), (TryCreate_again d' old Hd').
    repeat split; [discriminate|]. now intros old' [= ->].
Qed.

Lemma TryCreate_idempotent_witness :
  exists rows,
    TryCreate healthy NoRelation = (Emails rows, Return tt) /\
    TryCreate healthy (Emails rows) = (Emails rows, Return tt) /\
    (NoRelation = NoRelation -> rows = []) /\
    (forall old, NoRelation = Emails old -> rows = old).
Proof.
  apply (TryCreate_idempotent healthy healthy NoRelation eq_refl eq_refl).
  discriminate.
Defined.

Lemma TryCreate_fatal_witness :
  TryCreate (mkDriver (Some (DriverError "sql: database is closed")) [] None)
            (Emails two_rows)
  = (Emails two_rows, Fatal (DriverError "sql: database is closed")).
Proof.
  apply TryCreate_fatal; [reflexivity|]. intros x m. discriminate.
Defined.

(** X5.  CreateEmail never changes the database and never returns nil,
    whatever the database, the driver and the address. *)
Theorem CreateEmail_changes_nothing (d : Driver) (db : DB) (addr : string) :
  fst (CreateEmail d db addr) = db /\ snd (CreateEmail d db addr) <> None.
Proof.
  destruct (CreateEmail_never_inserts d db addr) as [err ->].
  split; [reflexivity|discriminate].
Qed.

(** X6.  UpdateEmail for an address without a row, with a time in the
    entry and a driver that works, appends one row after the rows of the
    table, which stay as they are.  The row has the address, the Unix
    seconds and the flag of the entry; its id is not the Id of the entry
    but an int64 no row has: 1 in the empty table, else the largest id plus
    one while that is an int64. *)
Theorem UpdateEmail_fresh_row (d : Driver) (rows : list Row)
        (entry : EmailEntry) (t : Time) (i : Z) :
  fault d = None -> ConfirmedAt entry = Some t -> Forall wf_row rows ->
  (forall r, In r rows -> email r <> Email entry) ->
  new_rowid d rows = Some i ->
  UpdateEmail d (Emails rows) entry
  = (Emails (rows ++ [mkRow i (Email entry) (Time_Unix t)
                            (bind_bool (OptOut entry))]), Return None) /\
  in_int64 i /\ ~ In i (map id rows) /\
  (rows = [] -> i = 1) /\
  (forall m, max_rowid rows = Some m -> m < max_int64 -> i = m + 1).
Proof.
  intros Hd Ht Hwf Hno Hi.
  split; [now apply UpdateEmail_insert|].
  destruct (new_rowid_fresh d rows i Hwf Hi) as [Hrange Hfresh].
  split; [exact Hrange|]. split; [exact Hfresh|]. split.
  - intros ->. now injection Hi as <-.
  - intros m Hm Hlt. unfold new_rowid in Hi. rewrite Hm in Hi.
    apply Z.ltb_lt in Hlt. rewrite Hlt in Hi. now injection Hi as <-.
Qed.

Lemma two_rows_wf : wf_rows two_rows.
Proof.
  unfold two_rows, wf_rows. simpl. split; [|split].
  - constructor; [intros [H|[]]; discriminate|].
    constructor; [intros []|constructor].
  - constructor; [intros [H|[]]; discriminate|].
    constructor; [intros []|constructor].
  - repeat constructor; unfold in_int64, min_int64, max_int64; simpl; lia.
Qed.

Lemma UpdateEmail_fresh_row_witness :
  UpdateEmail healthy (Emails two_rows)
    (mkEmailEntry 99 "c@x.com" (Some utc_2023) false)
  = (Emails (two_rows ++ [mkRow 3 "c@x.com" (Time_Unix utc_2023) (bind_bool false)]),
     Return None) /\
  in_int64 3 /\ ~ In 3 (map id two_rows) /\
  (two_rows = [] -> 3 = 1) /\
  (forall m, max_rowid two_rows = Some m -> m < max_int64 -> 3 = m + 1).
Proof.
  apply (UpdateEmail_fresh_row healthy two_rows
           (mkEmailEntry 99 "c@x.com" (Some utc_2023) false) utc_2023 3
           eq_refl eq_refl (proj2 (proj2 two_rows_wf))).
  - intros r [<-|[<-|[]]]; discriminate.
  - reflexivity.
Defined.

Lemma update_conflicting_twice (e : string) (c o : Z) (rows : list Row) :
  update_conflicting e c o (update_conflicting e c o rows)
  = update_conflicting e c o rows.
Proof.
  induction rows as [|x rows IH]; simpl; [reflexivity|].
  destruct (has_email e x) eqn:Hx; simpl.
  - unfold has_email in *. simpl. now rewrite Hx.
  - now rewrite Hx, IH.
Qed.

Lemma update_conflicting_exists (e : string) (c o : Z) (rows : list Row) :
  existsb (has_email e) (update_conflicting e c o rows)
  = existsb (has_email e) rows.
Proof.
  induction rows as [|x rows IH]; simpl; [reflexivity|].
  destruct (has_email e x) eqn:Hx; simpl.
  - unfold has_email in *. simpl. now rewrite Hx.
  - now rewrite Hx, IH.
Qed.

(** X7.  UpdateEmail is idempotent: when it has returned nil, the same
    call again (with a driver that works) returns nil and leaves the
    database as the first call left it; no second row appears. *)
Theorem UpdateEmail_twice (d d' : Driver) (db db1 : DB) (entry : EmailEntry) :
  UpdateEmail d db entry = (db1, Return None) -> fault d' = None ->
  UpdateEmail d' db1 entry = (db1, Return None).
Proof.
  unfold UpdateEmail, Exec. intros H Hd'. rewrite Hd'.
  destruct (ConfirmedAt entry) as [t|]; [|discriminate].
  destruct (fault d) as [e|]; [discriminate|].
  destruct db as [|rows|]; simpl in H; try discriminate.
  destruct (existsb (has_email (Email entry)) rows) eqn:Hex.
  - injection H as <-. simpl.
    now rewrite update_conflicting_exists, Hex, update_conflicting_twice.
  - destruct (new_rowid d rows) as [i|]; [|discriminate].
    injection H as <-. simpl.
    pose proof (proj1 (no_match_existsb _ _) Hex) as Hno.
    set (new := mkRow i (Email entry) (Time_Unix t) (bind_bool (OptOut entry))).
    rewrite (existsb_at (Email entry) rows [] new eq_refl).
    now rewrite (update_conflicting_at _ _ _ rows [] new Hno eq_refl).
Qed.

Lemma UpdateEmail_twice_witness :
  UpdateEmail healthy
    (Emails [mkRow 1 "a@x.com" 0 0; mkRow 2 "b@x.com" 1700000000 1]) entry_b
  = (Emails [mkRow 1 "a@x.com" 0 0; mkRow 2 "b@x.com" 1700000000 1], Return None).
Proof.
  apply (UpdateEmail_twice healthy healthy (Emails two_rows)); reflexivity.
Defined.

Lemma mark_twice (addr : string) (rows : list Row) :
  map (mark addr) (map (mark addr) rows) = map (mark addr) rows.
Proof.
  rewrite map_map. apply map_ext. intros r. unfold mark.
  destruct (has_email addr r) eqn:Hr; [|now rewrite Hr].
  unfold has_email in *. simpl. now rewrite Hr.
Qed.

(** X8.  DeleteEmail is idempotent: when it has returned nil, the same
    call again (with a driver that works) returns nil and leaves the
    database as the first call left it. *)
Theorem DeleteEmail_twice (d d' : Driver) (db db1 : DB) (addr : string) :
  DeleteEmail d db addr = (db1, None) -> fault d' = None ->
  DeleteEmail d' db1 addr = (db1, None).
Proof.
  unfold DeleteEmail, Exec. intros H Hd'. rewrite Hd'.
  destruct (fault d) as [e|]; [discriminate|].
  destruct db as [|rows|]; simpl in H; try discriminate.
  injection H as <-. simpl.
  do 2 f_equal. exact (mark_twice addr rows).
Qed.

Lemma DeleteEmail_twice_witness :
  DeleteEmail healthy (Emails [mkRow 1 "a@x.com" 0 0; mkRow 2 "b@x.com" 5 1])
              "b@x.com"
  = (Emails [mkRow 1 "a@x.com" 0 0; mkRow 2 "b@x.com" 5 1], None).
Proof.
  apply (DeleteEmail_twice healthy healthy (Emails two_rows)); reflexivity.
Defined.

End Writes.

(* ================================================================== *)
(** ** Further properties of the reads *)

Section Reads.

(** Every entry of a batch is the entry of a row of the table with
    opt_out = 0. *)
Lemma GetEmailBatch_from_rows (d : Driver) (rows : list Row)
      (params : GetEmailBatchQueryParams) (out : list EmailEntry)
      (err : option error) (e : EmailEntry) :
  GetEmailBatch d (Emails rows) params = Return (out, err) -> In e out ->
  exists r, In r rows /\ opt_out r = 0 /\ e = entry_of_row r.
Proof.
  unfold GetEmailBatch. intros H Hin.
  destruct (Query d (Emails rows) _) as [l|x] eqn:Hq.
  - destruct (Query_rows _ _ _ _ Hq) as (rows0 & all & k & [= <-] & Hall & ->).
    simpl in Hall. injection Hall as <-.
    destruct (makeslice_panics (Count params)); [discriminate|].
    destruct (GetEmailBatch_loop_Return _ _ _ _ H e Hin) as [[]|(r & Hr & ->)].
    apply in_firstn, limit_offset_incl in Hr.
    apply (Permutation_in _ (order_by_id_perm _)), filter_In in Hr.
    destruct Hr as [Hr H0]. apply Z.eqb_eq in H0. now exists r.
  - injection H as <- _. destruct Hin.
Qed.

(** X9.  After DeleteEmail of an address has returned nil, no page of
    GetEmailBatch, for any page and count and whatever the driver does,
    contains an entry with that address. *)
Theorem DeleteEmail_leaves_batches (d d' : Driver) (db db1 : DB) (addr : string)
        (params : GetEmailBatchQueryParams) (out : list EmailEntry)
        (err : option error) :
  DeleteEmail d db addr = (db1, None) ->
  GetEmailBatch d' db1 params = Return (out, err) ->
  forall e, In e out -> Email e <> addr.
Proof.
  unfold DeleteEmail, Exec. intros H Hbatch e He.
  destruct (fault d) as [x|]; [discriminate|].
  destruct db as [|rows|]; simpl in H; try discriminate.
  injection H as <-.
  destruct (GetEmailBatch_from_rows _ _ _ _ _ _ Hbatch He) as (r' & Hr' & H0 & ->).
  apply in_map_iff in Hr'. destruct Hr' as (r & <- & _).
  simpl. unfold has_email in *.
  destruct (String.eqb (email r) addr) eqn:Hr; simpl in *.
  - discriminate.
  - now apply String.eqb_neq.
Qed.

Lemma DeleteEmail_leaves_batches_witness :
  Email (mkEmailEntry 1 "a@x.com" (Some (Unix 0 0)) false) <> "b@x.com".
Proof.
  apply (DeleteEmail_leaves_batches healthy healthy (Emails two_rows)
           (Emails [mkRow 1 "a@x.com" 0 0; mkRow 2 "b@x.com" 5 1]) "b@x.com"
           (mkParams 1 10)
           [mkEmailEntry 1 "a@x.com" (Some (Unix 0 0)) false] None).
  - reflexivity.
  - reflexivity.
  - now left.
Defined.

(** X17.  When GetEmail returns an entry, the error is nil, the entry has
    the address asked for, and it is the entry of a row of the table:
    GetEmail never returns an entry together with an error. *)
Theorem GetEmail_entry (d : Driver) (db : DB) (addr : string)
        (e : EmailEntry) (err : option error) :
  GetEmail d db addr = (Some e, err) ->
  err = None /\ Email e = addr /\
  exists rows r, db = Emails rows /\ In r rows /\ flag r /\ e = entry_of_row r.
Proof.
  unfold GetEmail. intros H.
  destruct (Query d db _) as [l|x] eqn:Hq; [|discriminate].
  destruct (Query_rows _ _ _ _ Hq) as (rows & all & k & -> & Hall & ->).
  simpl in Hall. injection Hall as <-.
  destruct (firstn k (filter (has_email addr) rows)) as [|r rest] eqn:Hf;
    [discriminate|].
  destruct (firstn_head _ _ _ _ Hf) as [rest' Hf'].
  assert (Hr : In r (filter (has_email addr) rows)) by (rewrite Hf'; now left).
  apply filter_In in Hr. destruct Hr as [Hin Hr]. apply has_email_true in Hr.
  apply emailEntryFromRow_Some in H. destruct H as (-> & -> & Hflag).
  split; [reflexivity|]. split; [exact Hr|].
  exists rows, r. auto.
Qed.

Lemma GetEmail_entry_witness :
  @None error = None /\ "a@x.com" = "a@x.com" /\
  exists rows r, Emails one_row = Emails rows /\ In r rows /\ flag r /\
                 mkEmailEntry 1 "a@x.com" (Some (Unix 0 0)) false = entry_of_row r.
Proof.
  apply (GetEmail_entry healthy (Emails one_row) "a@x.com"
           (mkEmailEntry 1 "a@x.com" (Some (Unix 0 0)) false) None).
  reflexivity.
Defined.

(** X18.  An entry made by emailEntryFromRow from a row whose
    confirmed_at is an int64 encodes back to the cells of the row: the Unix
    seconds of its ConfirmedAt are confirmed_at, with no fraction of a
    second, and its OptOut, bound as an integer, is opt_out. *)
Theorem emailEntryFromRow_encodes_back (r : Row) (e : EmailEntry)
        (err : option error) :
  emailEntryFromRow r = (Some e, err) -> in_int64 (confirmed_at r) ->
  Id e = id r /\ Email e = email r /\ bind_bool (OptOut e) = opt_out r /\
  exists t, ConfirmedAt e = Some t /\ Time_Unix t = confirmed_at r /\ nsec t = 0.
Proof.
  intros H Hc. apply emailEntryFromRow_Some in H. destruct H as (-> & _ & Hflag).
  split; [reflexivity|]. split; [reflexivity|]. split.
  - simpl. destruct Hflag as [-> | ->]; reflexivity.
  - exists (Unix (confirmed_at r) 0). split; [reflexivity|].
    split; [now apply Time_Unix_of_Unix|reflexivity].
Qed.

Lemma emailEntryFromRow_encodes_back_witness :
  2 = 2 /\ "b@x.com" = "b@x.com" /\ bind_bool false = 0 /\
  exists t, Some (Unix 5 0) = Some t /\ Time_Unix t = 5 /\ nsec t = 0.
Proof.
  apply (emailEntryFromRow_encodes_back (mkRow 2 "b@x.com" 5 0)
           (mkEmailEntry 2 "b@x.com" (Some (Unix 5 0)) false) None eq_refl).
  unfold in_int64, min_int64, max_int64. simpl. lia.
Defined.

(** X10.  Writing back what was read changes nothing: when GetEmail has
    returned an entry from a table whose rows satisfy the invariant,
    UpdateEmail of that entry (with a driver that works) returns nil and
    leaves the table exactly as it was. *)
Theorem UpdateEmail_of_GetEmail (d d' : Driver) (rows : list Row) (addr : string)
        (e : EmailEntry) (err : option error) :
  GetEmail d (Emails rows) addr = (Some e, err) ->
  Forall wf_row rows -> fault d' = None ->
  UpdateEmail d' (Emails rows) e = (Emails rows, Return None).
Proof.
  unfold GetEmail. intros H Hwf Hd'.
  destruct (Query d (Emails rows) _) as [l|x] eqn:Hq; [|discriminate].
  destruct (Query_rows _ _ _ _ Hq) as (rows0 & all & k & [= <-] & Hall & ->).
  simpl in Hall. injection Hall as <-.
  destruct (firstn k (filter (has_email addr) rows)) as [|r rest0] eqn:Hk;
    [discriminate|].
  destruct (firstn_head _ _ _ _ Hk) as [rest Hf].
  assert (Hr : In r (filter (has_email addr) rows)) by (rewrite Hf; now left).
  apply filter_In in Hr. destruct Hr as [Hin Hr].
  apply emailEntryFromRow_Some in H. destruct H as (-> & _ & Hflag).
  assert (Hex : existsb (has_email addr) rows = true).
  { apply existsb_exists. now exists r. }
  destruct (first_match _ _ Hex) as (before & r0 & after & Hrows & Hr0 & Hb).
  rewrite Hrows, (filter_first_match _ _ _ _ Hb Hr0) in Hf.
  injection Hf as -> _. subst rows.
  rewrite (UpdateEmail_update d' before after r (entry_of_row r)
             (Unix (confirmed_at r) 0) Hd' eq_refl).
  - do 3 f_equal. rewrite Forall_forall in Hwf.
    destruct (Hwf r Hin) as (_ & Hc & _).
    rewrite (Time_Unix_of_Unix _ Hc). destruct r as [i m c o].
    unfold flag in Hflag. simpl in *.
    destruct Hflag as [-> | ->]; reflexivity.
  - simpl. now rewrite Hr0.
  - reflexivity.
Qed.

Lemma UpdateEmail_of_GetEmail_witness :
  UpdateEmail healthy (Emails two_rows)
    (mkEmailEntry 2 "b@x.com" (Some (Unix 5 0)) false)
  = (Emails two_rows, Return None).
Proof.
  apply (UpdateEmail_of_GetEmail healthy healthy two_rows "b@x.com" _ None).
  - reflexivity.
  - exact (proj2 (proj2 two_rows_wf)).
  - reflexivity.
Defined.

End Reads.

(* ================================================================== *)
(** ** Other addresses, faults and a missing table *)

Section Frames.

Lemma filter_other_mark (a b : string) (rows : list Row) :
  a <> b ->
  filter (has_email b) (map (mark a) rows) = filter (has_email b) rows.
Proof.
  intros Hab. induction rows as [|r rows IH]; simpl; [reflexivity|].
  rewrite IH. unfold mark, has_email.
  destruct (String.eqb (email r) a) eqn:Ha; [|reflexivity].
  simpl. apply String.eqb_eq in Ha.
  destruct (String.eqb (email r) b) eqn:Hb; [|reflexivity].
  apply String.eqb_eq in Hb. congruence.
Qed.

Lemma filter_other_update (a b : string) (c o : Z) (rows : list Row) :
  a <> b ->
  filter (has_email b) (update_conflicting a c o rows) = filter (has_email b) rows.
Proof.
  intros Hab. induction rows as [|r rows IH]; simpl; [reflexivity|].
  destruct (has_email a r) eqn:Ha; simpl.
  - apply has_email_true in Ha.
    assert (Hb : has_email b r = false) by (apply has_email_false; congruence).
    assert (Hb' : has_email b (set_confirmation c o r) = false) by exact Hb.
    now rewrite Hb, Hb'.
  - now rewrite IH.
Qed.

Lemma filter_other_new (b : string) (rows : list Row) (r : Row) :
  email r <> b -> filter (has_email b) (rows ++ [r]) = filter (has_email b) rows.
Proof.
  intros Hr. rewrite filter_app. simpl.
  apply has_email_false in Hr. rewrite Hr. apply app_nil_r.
Qed.

Lemma GetEmail_same_rows (d : Driver) (rows rows' : list Row) (b : string) :
  filter (has_email b) rows' = filter (has_email b) rows ->
  GetEmail d (Emails rows') b = GetEmail d (Emails rows) b.
Proof.
  intros H. unfold GetEmail, Query, run_query. now rewrite H.
Qed.

(** X11.  UpdateEmail and DeleteEmail touch one address: whatever they do
    and however they end, GetEmail of another address returns afterwards
    what it returned before. *)
Theorem GetEmail_other_address (d d' d'' : Driver) (db : DB)
        (entry : EmailEntry) (a b : string) :
  Email entry <> b -> a <> b ->
  GetEmail d'' (fst (UpdateEmail d db entry)) b = GetEmail d'' db b /\
  GetEmail d'' (fst (DeleteEmail d' db a)) b = GetEmail d'' db b.
Proof.
  intros He Ha. split.
  - unfold UpdateEmail, Exec.
    destruct (ConfirmedAt entry) as [t|]; [|reflexivity].
    destruct (fault d) as [x|]; [reflexivity|].
    destruct db as [|rows|]; try reflexivity. simpl.
    destruct (existsb (has_email (Email entry)) rows).
    + simpl. apply GetEmail_same_rows. now apply filter_other_update.
    + destruct (new_rowid d rows) as [i|]; [|reflexivity].
      simpl. apply GetEmail_same_rows. now apply filter_other_new.
  - unfold DeleteEmail, Exec.
    destruct (fault d') as [x|]; [reflexivity|].
    destruct db as [|rows|]; try reflexivity. simpl.
    apply GetEmail_same_rows. exact (filter_other_mark a b rows Ha).
Qed.

Lemma GetEmail_other_address_witness :
  GetEmail healthy (fst (UpdateEmail healthy (Emails two_rows) entry_b)) "a@x.com"
  = GetEmail healthy (Emails two_rows) "a@x.com" /\
  GetEmail healthy (fst (DeleteEmail healthy (Emails two_rows) "b@x.com")) "a@x.com"
  = GetEmail healthy (Emails two_rows) "a@x.com".
Proof.
  apply (GetEmail_other_address healthy healthy healthy (Emails two_rows)
           entry_b "b@x.com" "a@x.com"); discriminate.
Defined.

(** X15.  An error that db.Exec or db.Query returns reaches the caller as
    it is and nothing is written.  db.Exec returns every fault of the
    driver: CreateEmail, DeleteEmail and UpdateEmail (with a time in the
    entry) return it and leave the database alone.  When the fault makes
    db.Query itself fail, GetEmail returns nil with the error and
    GetEmailBatch an empty slice with it. *)
Theorem driver_error_returned (d : Driver) (db : DB) (x : error) (addr : string)
        (entry : EmailEntry) (params : GetEmailBatchQueryParams) :
  fault d = Some x ->
  CreateEmail d db addr = (db, Some x) /\
  DeleteEmail d db addr = (db, Some x) /\
  (ConfirmedAt entry <> None -> UpdateEmail d db entry = (db, Return (Some x))) /\
  (at_row d = None ->
   GetEmail d db addr = (None, Some x) /\
   GetEmailBatch d db params = Return ([], Some x)).
Proof.
  intros Hd.
  unfold CreateEmail, DeleteEmail, UpdateEmail, GetEmail, GetEmailBatch, Exec, Query.
  rewrite Hd. split; [reflexivity|]. split; [reflexivity|]. split.
  - intros Ht. destruct (ConfirmedAt entry); [reflexivity|congruence].
  - intros Hrow. rewrite Hrow. split; reflexivity.
Qed.

Lemma driver_error_returned_witness :
  let x := SqliteError 5 5 "database is locked" in
  let d := mkDriver (Some x) [] None in
  CreateEmail d (Emails two_rows) "c@x.com" = (Emails two_rows, Some x) /\
  DeleteEmail d (Emails two_rows) "c@x.com" = (Emails two_rows, Some x) /\
  (ConfirmedAt entry_b <> None ->
   UpdateEmail d (Emails two_rows) entry_b = (Emails two_rows, Return (Some x))) /\
  (at_row d = None ->
   GetEmail d (Emails two_rows) "c@x.com" = (None, Some x) /\
   GetEmailBatch d (Emails two_rows) (mkParams 1 10) = Return ([], Some x)).
Proof.
  intros x d.
  apply (driver_error_returned d (Emails two_rows) x "c@x.com" entry_b
           (mkParams 1 10)).
  reflexivity.
Defined.

(** X16.  Before the table exists (the name emails is unbound, or bound to
    an index), with a driver that works, every function but TryCreate
    reports "no such table: emails" and creates nothing; GetEmail does not
    answer "absent" there. *)
Theorem no_table_reported (d : Driver) (db : DB) (addr : string)
        (entry : EmailEntry) (params : GetEmailBatchQueryParams) :
  fault d = None -> no_table db ->
  CreateEmail d db addr = (db, Some no_such_table) /\
  DeleteEmail d db addr = (db, Some no_such_table) /\
  (ConfirmedAt entry <> None ->
   UpdateEmail d db entry = (db, Return (Some no_such_table))) /\
  GetEmail d db addr = (None, Some no_such_table) /\
  GetEmailBatch d db params = Return ([], Some no_such_table).
Proof.
  intros Hd Hdb.
  unfold CreateEmail, DeleteEmail, UpdateEmail, GetEmail, GetEmailBatch, Exec, Query.
  rewrite Hd.
  destruct Hdb as [-> | ->]; simpl; repeat split;
    intros Ht; (destruct (ConfirmedAt entry); [reflexivity|congruence]).
Qed.

Lemma no_table_reported_witness :
  CreateEmail healthy NoRelation "c@x.com" = (NoRelation, Some no_such_table) /\
  DeleteEmail healthy NoRelation "c@x.com" = (NoRelation, Some no_such_table) /\
  (ConfirmedAt entry_b <> None ->
   UpdateEmail healthy NoRelation entry_b
   = (NoRelation, Return (Some no_such_table))) /\
  GetEmail healthy NoRelation "c@x.com" = (None, Some no_such_table) /\
  GetEmailBatch healthy NoRelation (mkParams 1 10)
  = Return ([], Some no_such_table).
Proof.
  apply (no_table_reported healthy NoRelation "c@x.com" entry_b (mkParams 1 10)
           eq_refl).
  now left.
Defined.

End Frames.

(* ================================================================== *)
(** ** Pages *)

Section Pages.

Lemma StronglySorted_skipn {A : Type} (R : A -> A -> Prop) (n : nat) (l : list A) :
  StronglySorted R l -> StronglySorted R (skipn n l).
Proof.
  revert l. induction n as [|n IH]; intros l H; [exact H|].
  destruct l as [|x l]; [constructor|]. simpl.
  apply IH. now inversion H.
Qed.

Lemma StronglySorted_firstn {A : Type} (R : A -> A -> Prop) (n : nat) (l : list A) :
  StronglySorted R l -> StronglySorted R (firstn n l).
Proof.
  revert l. induction n as [|n IH]; intros l H; [constructor|].
  destruct l as [|x l]; [constructor|]. simpl.
  inversion H as [|? ? Hl Hx]; subst. constructor; [now apply IH|].
  rewrite Forall_forall in *. intros y Hy. apply Hx. now apply in_firstn in Hy.
Qed.

Lemma entries_sorted (l : list Row) :
  StronglySorted by_id l -> StronglySorted by_Id (map entry_of_row l).
Proof.
  induction 1 as [|x l Hl IH Hx]; simpl; constructor; [exact IH|].
  rewrite Forall_forall in *. intros e He. apply in_map_iff in He.
  destruct He as (r & <- & Hr). exact (Hx r Hr).
Qed.

(** X13.  For every page, also page <= 0 or an offset that wraps, and
    every count make accepts as a capacity (0 <= count, and count entries
    of 40 bytes within maxAlloc), GetEmailBatch on the table with a driver
    that works returns no error and at most count entries, in ascending Id,
    each with OptOut false and each the entry of a row of the table. *)
Theorem GetEmailBatch_any_page (d : Driver) (rows : list Row) (page count : Z) :
  fault d = None -> fits_make count ->
  exists out,
    GetEmailBatch d (Emails rows) (mkParams page count) = Return (out, None) /\
    Z.of_nat (List.length out) <= count /\
    StronglySorted by_Id out /\
    Forall (fun e => OptOut e = false /\
                     exists r, In r rows /\ e = entry_of_row r) out.
Proof.
  intros Hd Hfits. eexists. split; [now apply GetEmailBatch_sent|].
  destruct Hfits as [Hc _].
  split; [|split].
  - rewrite length_map. pose proof (firstn_le_length (Z.to_nat count)
      (skipn (Z.to_nat (Z.max 0 (wrap64 (wrap64 (page - 1) * count))))
             (order_by_id (filter subscribed rows)))). lia.
  - apply entries_sorted, StronglySorted_firstn, StronglySorted_skipn.
    apply order_by_id_sorted.
  - apply Forall_forall. intros e He. apply in_map_iff in He.
    destruct He as (r & <- & Hr). apply in_firstn, in_skipn in Hr.
    apply (Permutation_in _ (order_by_id_perm _)), filter_In in Hr.
    destruct Hr as [Hin H0]. apply Z.eqb_eq in H0. split.
    + unfold entry_of_row. simpl. now rewrite H0.
    + now exists r.
Qed.

Lemma GetEmailBatch_any_page_witness :
  exists out,
    GetEmailBatch healthy (Emails two_rows) (mkParams (-7) 1) = Return (out, None) /\
    Z.of_nat (List.length out) <= 1 /\
    StronglySorted by_Id out /\
    Forall (fun e => OptOut e = false /\
                     exists r, In r two_rows /\ e = entry_of_row r) out.
Proof.
  apply (GetEmailBatch_any_page healthy two_rows (-7) 1 eq_refl).
  unfold fits_make, sizeof_EmailEntry, maxAlloc. lia.
Defined.

Lemma run_query_inr (db : DB) (q : query) (x : error) :
  run_query db q = inr x -> no_table db /\ x = no_such_table.
Proof.
  destruct db as [|rows|]; simpl.
  - intros [= <-]. split; [now left|reflexivity].
  - destruct q; discriminate.
  - intros [= <-]. split; [now right|reflexivity].
Qed.

(** What GetEmailBatch returns from the rows it gets to see. *)
Lemma GetEmailBatch_seen (d : Driver) (db : DB) (page count : Z) (l : list Row) :
  Query d db (SELECT_WHERE_opt_out_ORDER_BY_id FALSE count
                (wrap64 (wrap64 (page - 1) * count))) = inl l ->
  makeslice_panics count = false ->
  GetEmailBatch d db (mkParams page count) = Return (map entry_of_row l, None).
Proof.
  intros Hq Hmk. unfold GetEmailBatch. simpl. rewrite Hq, Hmk.
  rewrite GetEmailBatch_loop_flags; [reflexivity|].
  destruct (Query_rows _ _ _ _ Hq) as (rows & all & k & -> & Hall & ->).
  simpl in Hall. injection Hall as <-.
  apply (filter_subscribed_flags rows). intros r Hr.
  apply in_firstn, limit_offset_incl in Hr.
  exact (Permutation_in _ (order_by_id_perm _) Hr).
Qed.

(** X14.  The ways GetEmailBatch can end.  It returns entries with a nil
    error when db.Query answers and make accepts count as a capacity; it
    returns an empty slice with an error only when db.Query itself fails, by
    a fault of the driver or for want of the table; it panics only in make,
    when db.Query answered and count is negative or too large a capacity.
    Reading the rows never fails and never dereferences nil. *)
Theorem GetEmailBatch_endings (d : Driver) (db : DB)
        (params : GetEmailBatchQueryParams) :
  (exists out rows,
     GetEmailBatch d db params = Return (out, None) /\
     query_answers d /\ db = Emails rows /\ fits_make (Count params)) \/
  (exists x,
     GetEmailBatch d db params = Return ([], Some x) /\
     ((fault d = Some x /\ at_row d = None) \/
      (query_answers d /\ no_table db /\ x = no_such_table))) \/
  (exists rows,
     GetEmailBatch d db params = Panic makeslice_cap /\
     query_answers d /\ db = Emails rows /\ ~ fits_make (Count params)).
Proof.
  destruct params as [page count]. simpl.
  destruct (Query d db (SELECT_WHERE_opt_out_ORDER_BY_id FALSE count
                          (wrap64 (wrap64 (page - 1) * count)))) as [l|x] eqn:Hq.
  - assert (Hans : query_answers d).
    { unfold query_answers. unfold Query in Hq.
      destruct (fault d); [|now left].
      destruct (at_row d); [right|]; discriminate. }
    destruct (Query_rows _ _ _ _ Hq) as (rows & all & k & Hdb & _ & _).
    destruct (makeslice_panics count) eqn:Hmk.
    + right. right. exists rows. split.
      * unfold GetEmailBatch. simpl. now rewrite Hq, Hmk.
      * split; [exact Hans|]. split; [exact Hdb|].
        rewrite makeslice_fits. congruence.
    + left. exists (map entry_of_row l), rows.
      split; [now apply GetEmailBatch_seen|].
      split; [exact Hans|]. split; [exact Hdb|]. now apply makeslice_fits.
  - right. left. exists x. split.
    + unfold GetEmailBatch. simpl. now rewrite Hq.
    + unfold Query in Hq. destruct (fault d) as [y|] eqn:Hd.
      * destruct (at_row d) as [k|] eqn:Hk.
        -- right. destruct (run_query db _) as [all|z] eqn:Hrun; [discriminate|].
           injection Hq as ->.
           destruct (run_query_inr _ _ _ Hrun) as [Hno ->].
           split; [right; rewrite Hk; discriminate|now split].
        -- left. injection Hq as ->. now split.
      * right. destruct (run_query_inr _ _ _ Hq) as [Hno ->].
        split; [now left|now split].
Qed.

Lemma firstn_plus {A : Type} (a b : nat) (l : list A) :
  firstn (a + b) l = firstn a l ++ firstn b (skipn a l).
Proof.
  revert l. induction a as [|a IH]; intros l; simpl; [reflexivity|].
  destruct l as [|x l]; simpl.
  - now rewrite firstn_nil.
  - now rewrite IH.
Qed.

Lemma windows_concat {A : Type} (c n : nat) (l : list A) :
  List.concat (map (fun i => firstn c (skipn ((i - 1) * c) l)) (seq 1 n))
  = firstn (n * c) l.
Proof.
  induction n as [|n IH]; [reflexivity|].
  rewrite seq_S, map_app, concat_app, IH. simpl.
  rewrite app_nil_r.
  replace (n - 0)%nat with n by lia.
  replace (c + n * c)%nat with (n * c + c)%nat by lia.
  now rewrite firstn_plus.
Qed.

Lemma page_sent (d : Driver) (rows : list Row) (count : Z) (n i : nat) :
  fault d = None -> 1 <= count -> Z.of_nat n * count <= max_int64 ->
  fits_make count -> (1 <= i <= n)%nat ->
  GetEmailBatch d (Emails rows) (mkParams (Z.of_nat i) count)
  = Return (map entry_of_row
              (firstn (Z.to_nat count)
                 (skipn ((i - 1) * Z.to_nat count)
                    (order_by_id (filter subscribed rows)))), None).
Proof.
  intros Hd Hc Hmax Hfits Hi.
  rewrite GetEmailBatch_sent by (exact Hd || exact Hfits).
  rewrite offset_exact by nia.
  rewrite Z.max_r by nia.
  replace (Z.of_nat i - 1) with (Z.of_nat (i - 1)) by lia.
  rewrite Z2Nat.inj_mul by lia. now rewrite Nat2Z.id.
Qed.

(** X12.  Pages fit together: for count >= 1 and n pages whose total
    n * count is a capacity make accepts (n * count entries of 40 bytes
    within maxAlloc), on the table with a driver that works, every page
    1 .. n is returned without error, and the pages in this order, one after
    the other, are exactly what page 1 with count n * count returns: no
    entry is skipped and none appears twice. *)
Theorem GetEmailBatch_pages_concat (d : Driver) (rows : list Row) (count : Z) (n : nat) :
  fault d = None -> 1 <= count ->
  sizeof_EmailEntry * (Z.of_nat n * count) <= maxAlloc ->
  exists outs whole,
    Forall2 (fun i out =>
               GetEmailBatch d (Emails rows) (mkParams (Z.of_nat i) count)
               = Return (out, None))
            (seq 1 n) outs /\
    GetEmailBatch d (Emails rows) (mkParams 1 (Z.of_nat n * count))
    = Return (whole, None) /\
    List.concat outs = whole.
Proof.
  intros Hd Hc Hcap.
  assert (Hmax : Z.of_nat n * count <= max_int64)
    by (unfold sizeof_EmailEntry, maxAlloc, max_int64 in *; lia).
  assert (Hwhole : fits_make (Z.of_nat n * count))
    by (split; [nia|exact Hcap]).
  set (l := order_by_id (filter subscribed rows)).
  set (c := Z.to_nat count).
  exists (map (fun i => map entry_of_row (firstn c (skipn ((i - 1) * c) l)))
              (seq 1 n)).
  exists (map entry_of_row (firstn (n * c) l)).
  split; [|split].
  - assert (H : forall s, (forall i, In i s -> (1 <= i <= n)%nat) ->
              Forall2 (fun i out =>
                         GetEmailBatch d (Emails rows) (mkParams (Z.of_nat i) count)
                         = Return (out, None))
                      s (map (fun i => map entry_of_row
                                         (firstn c (skipn ((i - 1) * c) l))) s)).
    { induction s as [|i s IH]; intros Hs; simpl; constructor.
      - assert (Hi : (1 <= i <= n)%nat) by (apply Hs; now left).
        apply (page_sent d rows count n i Hd Hc Hmax); [|exact Hi].
        unfold fits_make, sizeof_EmailEntry, maxAlloc in *. nia.
      - apply IH. intros j Hj. apply Hs. now right. }
    apply H. intros i Hi. apply in_seq in Hi. lia.
  - rewrite GetEmailBatch_sent by (exact Hd || exact Hwhole).
    change (wrap64 (1 - 1)) with 0. rewrite Z.mul_0_l.
    change (wrap64 0) with 0. change (Z.max 0 0) with 0. simpl skipn.
    rewrite Z2Nat.inj_mul by lia. now rewrite Nat2Z.id.
  - rewrite <- (windows_concat c n l), concat_map, map_map. reflexivity.
Qed.

Lemma GetEmailBatch_pages_concat_witness :
  exists outs whole,
    Forall2 (fun i out =>
               GetEmailBatch healthy (Emails rows_25) (mkParams (Z.of_nat i) 10)
               = Return (out, None))
            (seq 1 3) outs /\
    GetEmailBatch healthy (Emails rows_25) (mkParams 1 (Z.of_nat 3 * 10))
    = Return (whole, None) /\
    List.concat outs = whole.
Proof.
  apply (GetEmailBatch_pages_concat healthy rows_25 10 3 eq_refl);
    unfold sizeof_EmailEntry, maxAlloc; lia.
Defined.

End Pages.

(* ================================================================== *)
(** ** Faults while rows are read *)

Section RowFaults.

(** X19.  A fault that strikes while the rows are read is not reported:
    rows.Next returns false and neither GetEmail nor GetEmailBatch looks at
    rows.Err.  On the table, GetEmail returns nil and a nil error when the
    fault comes before the first row, also when the address has a row, and
    what it returns without the fault when it comes later; GetEmailBatch
    (count a capacity make accepts) returns, with a nil error, the first k
    entries of what it returns without the fault. *)
Theorem rows_fault_unreported (d : Driver) (rows : list Row) (x : error) (k : nat)
        (addr : string) (page count : Z) :
  fault d = Some x -> at_row d = Some k -> fits_make count ->
  (k = 0%nat -> GetEmail d (Emails rows) addr = (None, None)) /\
  ((1 <= k)%nat ->
   GetEmail d (Emails rows) addr = GetEmail healthy (Emails rows) addr) /\
  exists out,
    GetEmailBatch healthy (Emails rows) (mkParams page count) = Return (out, None) /\
    GetEmailBatch d (Emails rows) (mkParams page count)
    = Return (firstn k out, None).
Proof.
  intros Hd Hk Hfits. split; [|split].
  - intros ->. unfold GetEmail, Query. rewrite Hd, Hk. reflexivity.
  - intros Hpos. unfold GetEmail, Query. rewrite Hd, Hk. simpl.
    destruct k as [|k]; [lia|].
    destruct (filter (has_email addr) rows); reflexivity.
  - eexists. split; [apply GetEmailBatch_sent; [reflexivity|exact Hfits]|].
    rewrite firstn_map.
    apply GetEmailBatch_seen; [|now apply makeslice_fits].
    unfold Query. rewrite Hd, Hk. simpl.
    unfold limit_offset. destruct Hfits as [Hc _].
    destruct (count <? 0) eqn:Hneg; [apply Z.ltb_lt in Hneg; lia|].
    reflexivity.
Qed.

Lemma rows_fault_unreported_witness :
  let d := mkDriver (Some (SqliteError 10 10 "disk I/O error")) [] (Some 0%nat) in
  (0%nat = 0%nat -> GetEmail d (Emails two_rows) "b@x.com" = (None, None)) /\
  ((1 <= 0)%nat ->
   GetEmail d (Emails two_rows) "b@x.com"
   = GetEmail healthy (Emails two_rows) "b@x.com") /\
  exists out,
    GetEmailBatch healthy (Emails two_rows) (mkParams 1 10) = Return (out, None) /\
    GetEmailBatch d (Emails two_rows) (mkParams 1 10) = Return (firstn 0 out, None).
Proof.
  intros d.
  apply (rows_fault_unreported d two_rows (SqliteError 10 10 "disk I/O error")
           0 "b@x.com" 1 10 eq_refl eq_refl).
  unfold fits_make, sizeof_EmailEntry, maxAlloc. lia.
Defined.

End RowFaults.
